(** * Dynawo solver core: sparse-matrix synchronisation and profiling

    A shallow embedding of

    - [SolverCommon::copySparseToKINSOL],
      [SolverCommon::propagateMatrixStructureChangeToKINSOL],
      [SolverCommon::printLargestErrors] and the weighted norms
      (DYNSolverCommon.cpp), and
    - [SolverProfiler] (DYNSolverProfiler.h / DYNSolverProfiler.cpp),

    followed by the properties of the specification that concern them.

    Conventions of the embedding.

    - A C++ [int] is a [Z]; arithmetic on it is wrapped with [wrap_int]
      (two's complement, 32 bits), a conversion to [unsigned] is
      [to_unsigned].
    - A [double] is a primitive binary64 [float]; [realtype] is [double].
    - [sunindextype] is a signed 64-bit integer: every [int] and every
      [unsigned] converts to it without change of value, so entries of
      index arrays are plain [Z].
    - A heap buffer is the list of its cells; its length is the allocated
      capacity.  Reading or writing a cell that is not there, and dividing
      by zero, are undefined behaviour in C++: the model stops with [UB].
    - What the code does to the outside (free, malloc, memcmp, memcpy, the
      KLU re-initialisation, trace output) is recorded, in order, in the
      list of [event]s an [outcome] carries. *)

From Stdlib Require Import ZArith Lia String.
From Stdlib Require Import Floats.PrimFloat Numbers.Cyclic.Int63.Uint63.
From Stdlib Require Floats.FloatAxioms Floats.SpecFloat Floats.FloatOps.
From stdpp Require Import base option list sorting.

Open Scope Z_scope.

(* ================================================================== *)
(** ** Machine integers and doubles *)

Definition INT_MAX : Z := 2 ^ 31 - 1.
Definition INT_MIN : Z := - 2 ^ 31.

(** Result of an [int] operation whose mathematical value is [z]. *)
Definition wrap_int (z : Z) : Z := (z + 2 ^ 31) mod 2 ^ 32 - 2 ^ 31.

(** Conversion of an [int] to [unsigned]. *)
Definition to_unsigned (z : Z) : Z := z mod 2 ^ 32.

(** [static_cast<double>(z)] for an [int] [z] (exact: |z| < 2^53). *)
Definition double_of_int (z : Z) : float :=
  if z <? 0 then PrimFloat.opp (PrimFloat.of_uint63 (Uint63.of_Z (- z)))
  else PrimFloat.of_uint63 (Uint63.of_Z z).

(** [x >= y] and [x > y], [x < y] on doubles. *)
Definition double_ge (x y : float) : bool := PrimFloat.leb y x.
Definition double_gt (x y : float) : bool := PrimFloat.ltb y x.
Definition double_lt (x y : float) : bool := PrimFloat.ltb x y.

(* ================================================================== *)
(** ** Outcomes: a value and the events so far, or undefined behaviour *)

(** The buffers the code touches. *)
Inductive buffer : Set :=
| IndexPtrs     (* SM_INDEXPTRS_S(JJ) *)
| IndexVals     (* SM_INDEXVALS_S(JJ) *)
| Data          (* SM_DATA_S(JJ) *)
| LastRowVals   (* the snapshot *)
| MatAp         (* smj.Ap_ *)
| MatAi         (* smj.Ai_ *)
| MatAx.        (* smj.Ax_ *)

Inductive fault : Set :=
| OutOfBounds (b : buffer) (entries : Z) (capacity : nat)
    (* access to cell [entries] (or to [entries] cells) of a buffer of
       [capacity] cells *)
| DivisionByZero.

(** One insertion into a [std::stringstream]. *)
Inductive piece : Set :=
| Str (s : string)
| Int (n : Z)
| Fixed (precision : nat) (x : float).   (* std::fixed << std::setprecision(p) << x *)

Inductive event : Set :=
| Free (b : buffer)
| Malloc (b : buffer) (entries : Z)
| Memcmp (entries : Z)
| Memcpy (entries : Z)
| KLUReInit (nnz : Z) (reinit_type : Z)
| TraceDebug (msg : string)
| TraceInfo (report : list piece).

Inductive outcome (A : Type) : Type :=
| Ok (a : A) (tr : list event)
| UB (f : fault).
Arguments Ok {A} a tr.
Arguments UB {A} f.

#[global] Instance outcome_ret : MRet outcome := λ A a, Ok a [].
#[global] Instance outcome_bind : MBind outcome := λ A B k m,
  match m with
  | Ok a tr => match k a with
               | Ok b tr' => Ok b (tr ++ tr')
               | UB f => UB f
               end
  | UB f => UB f
  end.

Definition emit (e : event) : outcome unit := Ok tt [e].

(** The value of an outcome, forgetting the events. *)
Definition value {A} (m : outcome A) : option A :=
  match m with Ok a _ => Some a | UB _ => None end.

(** The events of an outcome. *)
Definition events {A} (m : outcome A) : list event :=
  match m with Ok _ tr => tr | UB _ => [] end.

(* ================================================================== *)
(** ** Memory operations *)

(** [l[i]] as an rvalue. *)
Definition load {A} (b : buffer) (l : list A) (i : nat) : outcome A :=
  match l !! i with
  | Some v => mret v
  | None => UB (OutOfBounds b (Z.of_nat i) (length l))
  end.

(** [l[i] = v]. *)
Definition store {A} (b : buffer) (l : list A) (i : nat) (v : A) : outcome (list A) :=
  if decide (i < length l)%nat then mret (<[i:=v]> l)
  else UB (OutOfBounds b (Z.of_nat i) (length l)).

(** [malloc(entries * sizeof(T))], assumed to succeed.  The cells are
    indeterminate in C; the model fills them with [junk].  A negative
    [entries] gives no cell at all. *)
Definition malloc {A} (b : buffer) (entries : Z) (junk : A) : outcome (list A) :=
  _ ← emit (Malloc b entries);
  mret (replicate (Z.to_nat entries) junk).

Definition free (b : buffer) : outcome unit := emit (Free b).

(** [memcmp(p, q, sizeof(sunindextype) * n) != 0].  Both objects must hold
    [n] entries; entries are compared as values, which for a fixed-width
    integer type coincides with comparing their bytes. *)
Definition memcmp_ne (p q : list Z) (n : Z) : outcome bool :=
  if decide (0 ≤ n ≤ Z.of_nat (length p)) then
    if decide (n ≤ Z.of_nat (length q)) then
      _ ← emit (Memcmp n);
      mret (bool_decide (take (Z.to_nat n) p ≠ take (Z.to_nat n) q))
    else UB (OutOfBounds IndexVals n (length q))
  else UB (OutOfBounds LastRowVals n (length p)).

(** [memcpy(dst, src, sizeof(sunindextype) * n)]. *)
Definition memcpy (dst src : list Z) (n : Z) : outcome (list Z) :=
  if decide (0 ≤ n ≤ Z.of_nat (length dst)) then
    if decide (n ≤ Z.of_nat (length src)) then
      _ ← emit (Memcpy n);
      mret (take (Z.to_nat n) src ++ drop (Z.to_nat n) dst)
    else UB (OutOfBounds IndexVals n (length src))
  else UB (OutOfBounds LastRowVals n (length dst)).

(** [x / d] with a [double] numerator and an [int] denominator.  A zero
    divisor is undefined behaviour in C++, and the model stops there; a
    binary with IEEE-754 doubles goes on with an infinity or NaN (see
    [savedTime_ieee] for the one place where the code divides unguarded). *)
Definition double_div_int (x : float) (d : Z) : outcome float :=
  if decide (d = 0) then UB DivisionByZero
  else mret (PrimFloat.div x (double_of_int d)).

(** [for (unsigned i = start; i < start + n; ++i) body]. *)
Fixpoint for_loop {S} (n : nat) (i : nat) (body : nat → S → outcome S) (s : S)
  : outcome S :=
  match n with
  | O => mret s
  | Datatypes.S n' => s' ← body i s; for_loop n' (Datatypes.S i) body s'
  end.

(* ================================================================== *)
(** ** The two matrices *)

(** Modelled from the spec: the class [SparseMatrix] (DYNSparseMatrix.h)
    is not among the sources.  It is a compressed-column matrix with a
    column-pointer array [Ap_], a row-index array [Ai_], a value array
    [Ax_] and the nonzero count [nbElem()]. *)
Record SparseMatrix : Type := {
  nbElem : Z;
  Ap_ : list Z;
  Ai_ : list Z;
  Ax_ : list float
}.

(** The content of a sparse [SUNMatrix], as the SUNDIALS accessor macros
    expose it. *)
Record SUNMatrix : Type := {
  SM_NNZ_S : Z;
  SM_INDEXPTRS_S : list Z;
  SM_INDEXVALS_S : list Z;
  SM_DATA_S : list float
}.

(** Allocated capacity of the row-index array of the backend matrix. *)
Definition capacity (JJ : SUNMatrix) : nat := length (SM_INDEXVALS_S JJ).

(* ================================================================== *)
(** ** DYNSolverCommon.cpp *)

Module SolverCommon.

Definition STRUCTURE_CHANGE_TOLERANCE : float := 0x1.47ae147ae147bp-7%float. (* 0.01 *)
Definition MIN_NNZ_CHANGE : Z := 10.

(** Lines 58-60. *)
Definition copy_index_pointers (smj : SparseMatrix) (size : Z) (ptrs : list Z)
  : outcome (list Z) :=
  for_loop (Z.to_nat (to_unsigned (wrap_int (size + 1)))) 0
    (λ i ptrs, v ← load MatAp (Ap_ smj) i; store IndexPtrs ptrs i v) ptrs.

(** Lines 61-64. *)
Definition copy_entries (smj : SparseMatrix) (vd : list Z * list float)
  : outcome (list Z * list float) :=
  for_loop (Z.to_nat (to_unsigned (nbElem smj))) 0
    (λ i vd,
       r ← load MatAi (Ai_ smj) i;
       vals ← store IndexVals vd.1 i r;
       x ← load MatAx (Ax_ smj) i;
       dat ← store Data vd.2 i x;
       mret (vals, dat)) vd.

Definition copySparseToKINSOL (smj : SparseMatrix) (JJ : SUNMatrix) (size : Z)
    (lastRowVals : option (list Z)) : outcome (SUNMatrix * bool) :=
  let matrixStructChange := false in
  let currentNNZ := SM_NNZ_S JJ in
  let newNNZ := nbElem smj in
  '(JJ, matrixStructChange) ←
    (if currentNNZ <? newNNZ then
       _ ← free IndexPtrs;
       _ ← free IndexVals;
       _ ← free Data;
       ptrs ← malloc IndexPtrs (wrap_int (size + 1)) 0;
       vals ← malloc IndexVals newNNZ 0;
       dat ← malloc Data newNNZ 0%float;
       mret ({| SM_NNZ_S := newNNZ; SM_INDEXPTRS_S := ptrs;
                SM_INDEXVALS_S := vals; SM_DATA_S := dat |}, true)
     else mret (JJ, matrixStructChange));
  (* NNZ has to be actualized anyway *)
  let JJ := {| SM_NNZ_S := newNNZ; SM_INDEXPTRS_S := SM_INDEXPTRS_S JJ;
               SM_INDEXVALS_S := SM_INDEXVALS_S JJ; SM_DATA_S := SM_DATA_S JJ |} in
  ptrs ← copy_index_pointers smj size (SM_INDEXPTRS_S JJ);
  '(vals, dat) ← copy_entries smj (SM_INDEXVALS_S JJ, SM_DATA_S JJ);
  let JJ := {| SM_NNZ_S := newNNZ; SM_INDEXPTRS_S := ptrs;
               SM_INDEXVALS_S := vals; SM_DATA_S := dat |} in
  matrixStructChange ←
    match lastRowVals with
    | Some snapshot =>
        let nnzDiff := Z.abs (wrap_int (newNNZ - currentNNZ)) in
        changeRatio ←
          (if 0 <? currentNNZ then double_div_int (double_of_int nnzDiff) currentNNZ
           else mret 1%float);
        if double_ge changeRatio STRUCTURE_CHANGE_TOLERANCE || (MIN_NNZ_CHANGE <=? nnzDiff)
        then
          (* Significant size change - check actual structure *)
          differs ← memcmp_ne snapshot (SM_INDEXVALS_S JJ) (SM_NNZ_S JJ);
          mret (if (differs : bool) then true else matrixStructChange)
        else
          if decide (newNNZ = currentNNZ) then
            (* Same size - check if pattern changed *)
            differs ← memcmp_ne snapshot (SM_INDEXVALS_S JJ) (SM_NNZ_S JJ);
            mret (if (differs : bool) then true else matrixStructChange)
          else
            (* sizes differ but within tolerance *)
            mret matrixStructChange
    | None => mret true   (* first time or size change *)
    end;
  mret (JJ, matrixStructChange).

(** [SUNLinSol_KLUReInit(LS, JJ, nnz, reinit_type)] of SUNDIALS.  With
    [reinit_type = 2] the matrix is kept and only the factorisations are
    scheduled to be redone; its return code is ignored by the caller. *)
Definition SUNLinSol_KLUReInit (JJ : SUNMatrix) (nnz : Z) (reinit_type : Z)
  : outcome unit := emit (KLUReInit nnz reinit_type).

Definition propagateMatrixStructureChangeToKINSOL (smj : SparseMatrix)
    (JJ : SUNMatrix) (size : Z) (lastRowVals : option (list Z)) (log : bool)
  : outcome (SUNMatrix * option (list Z)) :=
  '(JJ, matrixStructChange) ← copySparseToKINSOL smj JJ size lastRowVals;
  if (matrixStructChange : bool) then
    _ ← SUNLinSol_KLUReInit JJ (SM_NNZ_S JJ) 2;  (* reinit symbolic factorisation *)
    _ ← (match lastRowVals with
         | Some _ => free LastRowVals
         | None => mret tt
         end);
    buf ← malloc LastRowVals (SM_NNZ_S JJ) 0;
    buf ← memcpy buf (SM_INDEXVALS_S JJ) (SM_NNZ_S JJ);
    _ ← (if log then emit (TraceDebug "MatrixStructureChange") else mret tt);
    mret (JJ, Some buf)
  else mret (JJ, lastRowVals).

End SolverCommon.

(* ================================================================== *)
(** ** DYNSolverProfiler.h, DYNSolverProfiler.cpp *)

Module SolverProfiler.

Record SolverProfiler : Type := {
  symbolicFactorizations_ : Z;
  numericalOnlyFactorizations_ : Z;
  structureChangeDetections_ : Z;
  falsePositiveStructureChanges_ : Z;
  jacobianEvaluations_ : Z;
  totalSymbolicTime_ : float;
  totalNumericalTime_ : float;
  totalJacobianTime_ : float;
  totalNnzDiff_ : float;
  totalChangeRatio_ : float
}.

(** The constructor. *)
Definition new : SolverProfiler := {|
  symbolicFactorizations_ := 0;
  numericalOnlyFactorizations_ := 0;
  structureChangeDetections_ := 0;
  falsePositiveStructureChanges_ := 0;
  jacobianEvaluations_ := 0;
  totalSymbolicTime_ := 0%float;
  totalNumericalTime_ := 0%float;
  totalJacobianTime_ := 0%float;
  totalNnzDiff_ := 0%float;
  totalChangeRatio_ := 0%float
|}.

Definition reset (p : SolverProfiler) : SolverProfiler := {|
  symbolicFactorizations_ := 0;
  numericalOnlyFactorizations_ := 0;
  structureChangeDetections_ := 0;
  falsePositiveStructureChanges_ := 0;
  jacobianEvaluations_ := 0;
  totalSymbolicTime_ := 0%float;
  totalNumericalTime_ := 0%float;
  totalJacobianTime_ := 0%float;
  totalNnzDiff_ := 0%float;
  totalChangeRatio_ := 0%float
|}.

Definition logSymbolicFactorization (p : SolverProfiler) (elapsedTime : float)
  : SolverProfiler := {|
  symbolicFactorizations_ := wrap_int (symbolicFactorizations_ p + 1);
  numericalOnlyFactorizations_ := numericalOnlyFactorizations_ p;
  structureChangeDetections_ := structureChangeDetections_ p;
  falsePositiveStructureChanges_ := falsePositiveStructureChanges_ p;
  jacobianEvaluations_ := jacobianEvaluations_ p;
  totalSymbolicTime_ := (totalSymbolicTime_ p + elapsedTime)%float;
  totalNumericalTime_ := totalNumericalTime_ p;
  totalJacobianTime_ := totalJacobianTime_ p;
  totalNnzDiff_ := totalNnzDiff_ p;
  totalChangeRatio_ := totalChangeRatio_ p
|}.

Definition logNumericalFactorization (p : SolverProfiler) (elapsedTime : float)
  : SolverProfiler := {|
  symbolicFactorizations_ := symbolicFactorizations_ p;
  numericalOnlyFactorizations_ := wrap_int (numericalOnlyFactorizations_ p + 1);
  structureChangeDetections_ := structureChangeDetections_ p;
  falsePositiveStructureChanges_ := falsePositiveStructureChanges_ p;
  jacobianEvaluations_ := jacobianEvaluations_ p;
  totalSymbolicTime_ := totalSymbolicTime_ p;
  totalNumericalTime_ := (totalNumericalTime_ p + elapsedTime)%float;
  totalJacobianTime_ := totalJacobianTime_ p;
  totalNnzDiff_ := totalNnzDiff_ p;
  totalChangeRatio_ := totalChangeRatio_ p
|}.

Definition logStructureChange (p : SolverProfiler) (wasNecessary : bool)
    (nnzDiff : Z) (changeRatio : float) : SolverProfiler := {|
  symbolicFactorizations_ := symbolicFactorizations_ p;
  numericalOnlyFactorizations_ := numericalOnlyFactorizations_ p;
  structureChangeDetections_ := wrap_int (structureChangeDetections_ p + 1);
  falsePositiveStructureChanges_ :=
    if negb wasNecessary then wrap_int (falsePositiveStructureChanges_ p + 1)
    else falsePositiveStructureChanges_ p;
  jacobianEvaluations_ := jacobianEvaluations_ p;
  totalSymbolicTime_ := totalSymbolicTime_ p;
  totalNumericalTime_ := totalNumericalTime_ p;
  totalJacobianTime_ := totalJacobianTime_ p;
  totalNnzDiff_ := (totalNnzDiff_ p + double_of_int nnzDiff)%float;
  totalChangeRatio_ := (totalChangeRatio_ p + changeRatio)%float
|}.

Definition logJacobianEvaluation (p : SolverProfiler) (elapsedTime : float)
  : SolverProfiler := {|
  symbolicFactorizations_ := symbolicFactorizations_ p;
  numericalOnlyFactorizations_ := numericalOnlyFactorizations_ p;
  structureChangeDetections_ := structureChangeDetections_ p;
  falsePositiveStructureChanges_ := falsePositiveStructureChanges_ p;
  jacobianEvaluations_ := wrap_int (jacobianEvaluations_ p + 1);
  totalSymbolicTime_ := totalSymbolicTime_ p;
  totalNumericalTime_ := totalNumericalTime_ p;
  totalJacobianTime_ := (totalJacobianTime_ p + elapsedTime)%float;
  totalNnzDiff_ := totalNnzDiff_ p;
  totalChangeRatio_ := totalChangeRatio_ p
|}.

(** The inline getters of the header. *)
Definition getSymbolicFactorizationCount (p : SolverProfiler) : Z :=
  symbolicFactorizations_ p.
Definition getNumericalFactorizationCount (p : SolverProfiler) : Z :=
  numericalOnlyFactorizations_ p.
Definition getTotalSymbolicTime (p : SolverProfiler) : float := totalSymbolicTime_ p.
Definition getTotalNumericalTime (p : SolverProfiler) : float := totalNumericalTime_ p.
Definition getFalsePositiveCount (p : SolverProfiler) : Z :=
  falsePositiveStructureChanges_ p.

Definition getSymbolicToNumericalRatio (p : SolverProfiler) : outcome float :=
  if decide (numericalOnlyFactorizations_ p = 0) then mret 0%float
  else double_div_int (double_of_int (symbolicFactorizations_ p))
                      (numericalOnlyFactorizations_ p).

(** The line feed of the ["\n"] in the C++ string literals. *)
Definition LF : string := String (Ascii.ascii_of_nat 10) EmptyString.

Definition printStatistics (p : SolverProfiler) : outcome unit :=
  let ss : list piece := [] in
  let ss := ss ++ [Str LF] in
  let ss := ss ++ [Str ("========================================" ++ LF)] in
  let ss := ss ++ [Str ("  Solver Performance Profiling Report  " ++ LF)] in
  let ss := ss ++ [Str ("========================================" ++ LF)] in
  let ss := ss ++ [Str LF] in
  (* Factorization statistics *)
  let ss := ss ++ [Str ("Factorization Statistics:" ++ LF)] in
  let ss := ss ++ [Str "  Symbolic factorizations:        ";
                   Int (symbolicFactorizations_ p); Str LF] in
  let ss := ss ++ [Str "  Numerical-only factorizations:  ";
                   Int (numericalOnlyFactorizations_ p); Str LF] in
  let totalFactorizations :=
    wrap_int (symbolicFactorizations_ p + numericalOnlyFactorizations_ p) in
  ss ← (if 0 <? totalFactorizations then
          q ← double_div_int (double_of_int (symbolicFactorizations_ p))
                             totalFactorizations;
          let symbolicRatio := (q * 100)%float in
          mret (ss ++ [Str "  Symbolic ratio:                 ";
                       Fixed 1 symbolicRatio; Str ("%" ++ LF)])
        else mret ss);
  ss ← (if 0 <? symbolicFactorizations_ p then
          avgSymbolicTime ← double_div_int (totalSymbolicTime_ p)
                                           (symbolicFactorizations_ p);
          mret (ss ++ [Str "  Avg symbolic time:              ";
                       Fixed 6 avgSymbolicTime; Str (" s" ++ LF)])
        else mret ss);
  ss ← (if 0 <? numericalOnlyFactorizations_ p then
          avgNumericalTime ← double_div_int (totalNumericalTime_ p)
                                            (numericalOnlyFactorizations_ p);
          mret (ss ++ [Str "  Avg numerical time:             ";
                       Fixed 6 avgNumericalTime; Str (" s" ++ LF)])
        else mret ss);
  let ss := ss ++ [Str "  Total symbolic time:            ";
                   Fixed 6 (totalSymbolicTime_ p); Str (" s" ++ LF)] in
  let ss := ss ++ [Str "  Total numerical time:           ";
                   Fixed 6 (totalNumericalTime_ p); Str (" s" ++ LF)] in
  ratio ← getSymbolicToNumericalRatio p;
  let ss := if double_gt ratio 0 then
              ss ++ [Str "  Symbolic/Numerical ratio:       ";
                     Fixed 2 ratio; Str (":1" ++ LF)]
            else ss in
  let ss := ss ++ [Str LF] in
  (* Matrix structure change statistics *)
  let ss := ss ++ [Str ("Matrix Structure Changes:" ++ LF)] in
  let ss := ss ++ [Str "  Total detections:               ";
                   Int (structureChangeDetections_ p); Str LF] in
  let ss := ss ++ [Str "  False positives avoided:        ";
                   Int (falsePositiveStructureChanges_ p); Str LF] in
  ss ← (if 0 <? structureChangeDetections_ p then
          q ← double_div_int (double_of_int (falsePositiveStructureChanges_ p))
                             (structureChangeDetections_ p);
          let avoidanceRate := (q * 100)%float in
          let ss := ss ++ [Str "  Avoidance rate:                 ";
                           Fixed 1 avoidanceRate; Str ("%" ++ LF)] in
          avgNnzDiff ← double_div_int (totalNnzDiff_ p) (structureChangeDetections_ p);
          let ss := ss ++ [Str "  Avg NNZ difference:             ";
                           Fixed 1 avgNnzDiff; Str LF] in
          avgChangeRatio ← double_div_int (totalChangeRatio_ p)
                                          (structureChangeDetections_ p);
          mret (ss ++ [Str "  Avg change ratio:               ";
                       Fixed 4 avgChangeRatio; Str LF])
        else mret ss);
  let ss := ss ++ [Str LF] in
  (* Jacobian evaluation statistics *)
  let ss := ss ++ [Str ("Jacobian Evaluation:" ++ LF)] in
  let ss := ss ++ [Str "  Total evaluations:              ";
                   Int (jacobianEvaluations_ p); Str LF] in
  let ss := ss ++ [Str "  Total Jacobian time:            ";
                   Fixed 6 (totalJacobianTime_ p); Str (" s" ++ LF)] in
  ss ← (if 0 <? jacobianEvaluations_ p then
          avgJacobianTime ← double_div_int (totalJacobianTime_ p)
                                           (jacobianEvaluations_ p);
          mret (ss ++ [Str "  Avg evaluation time:            ";
                       Fixed 6 avgJacobianTime; Str (" s" ++ LF)])
        else mret ss);
  let ss := ss ++ [Str LF] in
  (* Performance insights *)
  let ss := ss ++ [Str ("Performance Analysis:" ++ LF)] in
  let ss := if double_gt ratio 1.5 then
              ss ++ [Str ("  ⚠ HIGH symbolic factorization ratio detected!" ++ LF);
                     Str ("    Consider enabling adaptive factorization control." ++ LF)]
            else if double_gt ratio 0 && double_lt ratio 0.5 then
              ss ++ [Str ("  ✓ GOOD symbolic factorization efficiency." ++ LF)]
            else ss in
  ss ← (if 0 <? falsePositiveStructureChanges_ p then
          q ← double_div_int (totalSymbolicTime_ p) (symbolicFactorizations_ p);
          let savedTime := (double_of_int (falsePositiveStructureChanges_ p) * q)%float in
          mret (ss ++ [Str "  Estimated time saved by tolerance: ";
                       Fixed 3 savedTime; Str (" s" ++ LF)])
        else mret ss);
  let ss := ss ++ [Str ("========================================" ++ LF)] in
  emit (TraceInfo ss).

End SolverProfiler.

(* ================================================================== *)
(** ** Preconditions and closed forms used by the statements *)

Import SolverCommon SolverProfiler.

(** What the types and the documented layout of the local matrix give:
    [size] and [nbElem()] are non-negative [int]s, [size + 1] does not
    overflow, and the three arrays hold at least the cells the copy
    loops read. *)
Definition wf_matrix (smj : SparseMatrix) (size : Z) : Prop :=
  0 ≤ size < INT_MAX ∧
  0 ≤ nbElem smj ≤ INT_MAX ∧
  size + 1 ≤ Z.of_nat (length (Ap_ smj)) ∧
  nbElem smj ≤ Z.of_nat (length (Ai_ smj)) ∧
  nbElem smj ≤ Z.of_nat (length (Ax_ smj)).

(** What the backend guarantees of its matrix: a column-pointer array of
    at least [size + 1] cells, and row-index and value arrays of at least
    the reported number of nonzeros. *)
Definition wf_backend (JJ : SUNMatrix) (size : Z) : Prop :=
  size + 1 ≤ Z.of_nat (length (SM_INDEXPTRS_S JJ)) ∧
  SM_NNZ_S JJ ≤ Z.of_nat (length (SM_INDEXVALS_S JJ)) ∧
  SM_NNZ_S JJ ≤ Z.of_nat (length (SM_DATA_S JJ)).

(** A snapshot the comparison may read [n] entries of. *)
Definition snapshot_holds (lastRowVals : option (list Z)) (n : Z) : Prop :=
  match lastRowVals with
  | Some snapshot => n ≤ Z.of_nat (length snapshot)
  | None => True
  end.

(** The growth test of line 44. *)
Definition grows (smj : SparseMatrix) (JJ : SUNMatrix) : bool :=
  SM_NNZ_S JJ <? nbElem smj.

(** The test of line 73 on the two counts. *)
Definition significant (currentNNZ newNNZ : Z) : bool :=
  let nnzDiff := Z.abs (wrap_int (newNNZ - currentNNZ)) in
  double_ge
    (if 0 <? currentNNZ
     then PrimFloat.div (double_of_int nnzDiff) (double_of_int currentNNZ)
     else 1%float)
    STRUCTURE_CHANGE_TOLERANCE
  || (MIN_NNZ_CHANGE <=? nnzDiff).

(** The backend matrix after lines 44-53: fresh arrays on growth. *)
Definition reallocated (smj : SparseMatrix) (JJ : SUNMatrix) (size : Z) : SUNMatrix :=
  if grows smj JJ then
    {| SM_NNZ_S := nbElem smj;
       SM_INDEXPTRS_S := replicate (Z.to_nat (size + 1)) 0;
       SM_INDEXVALS_S := replicate (Z.to_nat (nbElem smj)) 0;
       SM_DATA_S := replicate (Z.to_nat (nbElem smj)) 0%float |}
  else JJ.

(** The backend matrix after lines 44-64. *)
Definition synchronised (smj : SparseMatrix) (JJ : SUNMatrix) (size : Z) : SUNMatrix :=
  let k := Z.to_nat (size + 1) in
  let n := Z.to_nat (nbElem smj) in
  let JJ0 := reallocated smj JJ size in
  {| SM_NNZ_S := nbElem smj;
     SM_INDEXPTRS_S := take k (Ap_ smj) ++ drop k (SM_INDEXPTRS_S JJ0);
     SM_INDEXVALS_S := take n (Ai_ smj) ++ drop n (SM_INDEXVALS_S JJ0);
     SM_DATA_S := take n (Ax_ smj) ++ drop n (SM_DATA_S JJ0) |}.

(** The events of lines 44-53. *)
Definition reallocation (smj : SparseMatrix) (JJ : SUNMatrix) (size : Z) : list event :=
  if grows smj JJ then
    [Free IndexPtrs; Free IndexVals; Free Data;
     Malloc IndexPtrs (size + 1); Malloc IndexVals (nbElem smj);
     Malloc Data (nbElem smj)]
  else [].

(** The verdict of a finished call, if it finished. *)
Definition verdict (m : outcome (SUNMatrix * bool)) : option bool :=
  snd <$> value m.

(** What a caller observes of the verdict: the boolean, or the fault the
    call stopped on. *)
Definition decision (m : outcome (SUNMatrix * bool)) : fault + bool :=
  match m with
  | Ok (_, b) _ => inr b
  | UB f => inl f
  end.

(** Two outcomes agree: both finish with related values and the same
    events, or both stop on the same fault. *)
Definition outcome_rel {A B} (R : A → B → Prop) (m1 : outcome A) (m2 : outcome B)
  : Prop :=
  match m1, m2 with
  | Ok a tr1, Ok b tr2 => R a b ∧ tr1 = tr2
  | UB f1, UB f2 => f1 = f2
  | _, _ => False
  end.

(** All [Memcmp] events of a trace read [n] entries. *)
Definition compares_only (n : Z) (tr : list event) : Prop :=
  ∀ m, Memcmp m ∈ tr → m = n.

(** A run of the synchroniser over a list of calls, each with its local
    matrix and the snapshot handed in; the backend matrix is threaded
    through.  The result lists the backend matrix after each call. *)
Fixpoint run_calls (calls : list (SparseMatrix * option (list Z))) (JJ : SUNMatrix)
    (size : Z) : outcome (list SUNMatrix) :=
  match calls with
  | [] => mret []
  | (smj, lastRowVals) :: rest =>
      '(JJ', _) ← copySparseToKINSOL smj JJ size lastRowVals;
      after ← run_calls rest JJ' size;
      mret (JJ' :: after)
  end.

(** The capacities after each call of a finished run. *)
Definition capacities (m : outcome (list SUNMatrix)) : option (list nat) :=
  match value m with
  | Some states => Some (capacity <$> states)
  | None => None
  end.

(** Nonzero counts of the calls are nondecreasing. *)
Fixpoint nondecreasing (l : list Z) : Prop :=
  match l with
  | [] => True
  | x :: rest => match rest with
                 | [] => True
                 | y :: _ => x ≤ y
                 end ∧ nondecreasing rest
  end.

(* ================================================================== *)
(** ** Concrete matrices used in the examples *)

(** A matrix without any nonzero, of one column. *)
Definition empty_matrix : SparseMatrix :=
  {| nbElem := 0; Ap_ := [0; 0]; Ai_ := []; Ax_ := [] |}.

(** A backend matrix as created for one column and no nonzero. *)
Definition empty_backend : SUNMatrix :=
  {| SM_NNZ_S := 0; SM_INDEXPTRS_S := [0; 0]; SM_INDEXVALS_S := []; SM_DATA_S := [] |}.

(** One column holding one nonzero in row 0. *)
Definition one_entry_matrix : SparseMatrix :=
  {| nbElem := 1; Ap_ := [0; 1]; Ai_ := [0]; Ax_ := [1%float] |}.

(** The backend matrix holding one nonzero in row 1. *)
Definition one_entry_backend : SUNMatrix :=
  {| SM_NNZ_S := 1; SM_INDEXPTRS_S := [0; 1]; SM_INDEXVALS_S := [1];
     SM_DATA_S := [1%float] |}.

(** One column of 1005 nonzeros, all in row 0. *)
Definition matrix_1005 : SparseMatrix :=
  {| nbElem := 1005; Ap_ := [0; 1005]; Ai_ := replicate 1005 0;
     Ax_ := replicate 1005 1%float |}.

(** One column of 1000 nonzeros, all in row 0. *)
Definition matrix_1000 : SparseMatrix :=
  {| nbElem := 1000; Ap_ := [0; 1000]; Ai_ := replicate 1000 0;
     Ax_ := replicate 1000 1%float |}.

(** The backend matrix after [matrix_1000] was installed. *)
Definition backend_1000 : SUNMatrix :=
  {| SM_NNZ_S := 1000; SM_INDEXPTRS_S := [0; 1000];
     SM_INDEXVALS_S := replicate 1000 0; SM_DATA_S := replicate 1000 1%float |}.

(** The backend matrix after [matrix_1005] was installed. *)
Definition backend_1005 : SUNMatrix :=
  {| SM_NNZ_S := 1005; SM_INDEXPTRS_S := [0; 1005];
     SM_INDEXVALS_S := replicate 1005 0; SM_DATA_S := replicate 1005 1%float |}.

(** One column holding two nonzeros, in rows 0 and 1. *)
Definition two_entry_matrix : SparseMatrix :=
  {| nbElem := 2; Ap_ := [0; 2]; Ai_ := [0; 1]; Ax_ := [1%float; 1%float] |}.

(** A backend matrix that reports one nonzero and has room for three, as
    left by a shrink from three nonzeros to one. *)
Definition backend_1_of_3 : SUNMatrix :=
  {| SM_NNZ_S := 1; SM_INDEXPTRS_S := [0; 1]; SM_INDEXVALS_S := [0; 1; 2];
     SM_DATA_S := [1%float; 1%float; 1%float] |}.

(** [one_entry_matrix] with another value. *)
Definition one_entry_matrix_scaled : SparseMatrix :=
  {| nbElem := 1; Ap_ := [0; 1]; Ai_ := [0]; Ax_ := [2%float] |}.

(* ================================================================== *)
(** ** Further concrete matrices *)

(** One column holding three nonzeros, in rows 0, 1 and 2. *)
Definition three_entry_matrix : SparseMatrix :=
  {| nbElem := 3; Ap_ := [0; 3]; Ai_ := [0; 1; 2];
     Ax_ := [1%float; 1%float; 1%float] |}.

(** Along a list of counts, every call that grows the reported count
    brings it to at least the capacity [start_capacity]; [reported] is the
    count reported before the first call. *)
Fixpoint growth_clears (start_capacity reported : Z) (counts : list Z) : Prop :=
  match counts with
  | [] => True
  | count :: rest =>
      (reported < count → start_capacity ≤ count) ∧
      growth_clears start_capacity count rest
  end.

(** The value the expression of lines 186-187 of DYNSolverProfiler.cpp has
    in IEEE-754 arithmetic, where a division by zero gives NaN or an
    infinity. *)
Definition savedTime_ieee (p : SolverProfiler) : float :=
  (double_of_int (falsePositiveStructureChanges_ p)
   * (totalSymbolicTime_ p / double_of_int (symbolicFactorizations_ p)))%float.

(** Two columns and one nonzero, in row 0 of the first column. *)
Definition nonzero_in_first_column : SparseMatrix :=
  {| nbElem := 1; Ap_ := [0; 1; 1]; Ai_ := [0]; Ax_ := [1%float] |}.

(** Two columns and one nonzero, in row 0 of the second column. *)
Definition nonzero_in_second_column : SparseMatrix :=
  {| nbElem := 1; Ap_ := [0; 0; 1]; Ai_ := [0]; Ax_ := [1%float] |}.

(** The backend matrix after [nonzero_in_first_column] was installed. *)
Definition backend_two_columns : SUNMatrix :=
  {| SM_NNZ_S := 1; SM_INDEXPTRS_S := [0; 1; 1]; SM_INDEXVALS_S := [0];
     SM_DATA_S := [1%float] |}.

(** One column of 1000 nonzeros, all in row 1. *)
Definition matrix_1000_row_1 : SparseMatrix :=
  {| nbElem := 1000; Ap_ := [0; 1000]; Ai_ := replicate 1000 1;
     Ax_ := replicate 1000 1%float |}.

(* ================================================================== *)
(** ** The state the coordinator keeps between calls *)

(** The backend matrix is well formed and the snapshot, if there is one,
    holds at least as many entries as the backend reports nonzeros. *)
Definition coordinator_state (JJ : SUNMatrix) (size : Z)
    (lastRowVals : option (list Z)) : Prop :=
  wf_backend JJ size ∧ snapshot_holds lastRowVals (SM_NNZ_S JJ).

(* ================================================================== *)
(** ** Sequences of calls to the profiler *)

(** The four logging calls of [SolverProfiler]. *)
Inductive call : Type :=
| LogSymbolicFactorization (elapsedTime : float)
| LogNumericalFactorization (elapsedTime : float)
| LogStructureChange (wasNecessary : bool) (nnzDiff : Z) (changeRatio : float)
| LogJacobianEvaluation (elapsedTime : float).

Definition perform (p : SolverProfiler) (c : call) : SolverProfiler :=
  match c with
  | LogSymbolicFactorization t => logSymbolicFactorization p t
  | LogNumericalFactorization t => logNumericalFactorization p t
  | LogStructureChange wasNecessary nnzDiff changeRatio =>
      logStructureChange p wasNecessary nnzDiff changeRatio
  | LogJacobianEvaluation t => logJacobianEvaluation p t
  end.

(** The calls of a list, first to last. *)
Definition perform_all (calls : list call) (p : SolverProfiler) : SolverProfiler :=
  foldl perform p calls.

Definition is_symbolic (c : call) : bool :=
  match c with LogSymbolicFactorization _ => true | _ => false end.
Definition is_numerical (c : call) : bool :=
  match c with LogNumericalFactorization _ => true | _ => false end.
Definition is_structure_change (c : call) : bool :=
  match c with LogStructureChange _ _ _ => true | _ => false end.
Definition is_false_positive (c : call) : bool :=
  match c with LogStructureChange false _ _ => true | _ => false end.
Definition is_jacobian (c : call) : bool :=
  match c with LogJacobianEvaluation _ => true | _ => false end.

(** How many calls of a list are of a kind. *)
Fixpoint count_calls (kind : call → bool) (calls : list call) : Z :=
  match calls with
  | [] => 0
  | c :: rest => (if kind c then 1 else 0) + count_calls kind rest
  end.

(** What a call adds to each of the five sums. *)
Definition symbolic_time (c : call) : option float :=
  match c with LogSymbolicFactorization t => Some t | _ => None end.
Definition numerical_time (c : call) : option float :=
  match c with LogNumericalFactorization t => Some t | _ => None end.
Definition jacobian_time (c : call) : option float :=
  match c with LogJacobianEvaluation t => Some t | _ => None end.
Definition nnz_difference (c : call) : option float :=
  match c with LogStructureChange _ nnzDiff _ => Some (double_of_int nnzDiff) | _ => None end.
Definition change_ratio (c : call) : option float :=
  match c with LogStructureChange _ _ changeRatio => Some changeRatio | _ => None end.

(** The sum, in call order and in double arithmetic, of what the calls of
    a list add, starting from [start]. *)
Definition accumulate (term : call → option float) (calls : list call) (start : float)
  : float :=
  foldl (λ sum c, match term c with Some t => (sum + t)%float | None => sum end)
        start calls.

(* ================================================================== *)
(** ** DYNSolverCommon.cpp: the weighted norms and the error report *)

(** The result of a function that starts with an [assert]: its value, the
    assertion failing (which aborts a debug build), or an access outside
    a vector. *)
Inductive asserted (A : Type) : Type :=
| Returns (a : A)
| AssertionFailed (msg : string)
| Undefined.
Arguments Returns {A} a.
Arguments AssertionFailed {A} msg.
Arguments Undefined {A}.

(** [v[i]] of a [std::vector] for an [int] [i]: converted to [size_t], a
    negative index is past the end. *)
Definition vector_at {A} (v : list A) (i : Z) : option A :=
  if decide (0 ≤ i) then v !! Z.to_nat i else None.

(** [for (unsigned int i = start; i < start + n; ++i) body], the body
    reading vectors. *)
Fixpoint vector_loop {S} (n : nat) (i : nat) (body : nat → S → option S) (s : S)
  : option S :=
  match n with
  | O => Some s
  | Datatypes.S n' => s' ← body i s; vector_loop n' (Datatypes.S i) body s'
  end.

Module SolverCommonNorms.

(** Lines 132-143. *)
Definition weightedInfinityNorm (vec weights : list float) : asserted float :=
  if decide (length vec = length weights) then
    let norm := 0%float in
    let product := 0%float in
    match vector_loop (length vec) 0
            (λ i '(norm, product),
               v ← vec !! i;
               w ← weights !! i;
               let product := PrimFloat.abs (v * w) in
               Some (if double_gt product norm then product else norm, product))
            (norm, product)
    with
    | Some (norm, _) => Returns norm
    | None => Undefined
    end
  else AssertionFailed "Vectors must have same length.".

(** Lines 145-152. *)
Definition weightedL2Norm (vec weights : list float) : asserted float :=
  if decide (length vec = length weights) then
    let squared_norm := 0%float in
    match vector_loop (length vec) 0
            (λ i squared_norm,
               v ← vec !! i;
               w ← weights !! i;
               Some (squared_norm + (v * w) * (v * w))%float)
            squared_norm
    with
    | Some squared_norm => Returns (PrimFloat.sqrt squared_norm)
    | None => Undefined
    end
  else AssertionFailed "Vectors must have same length.".

(** Lines 154-165: the overload that reads [vec] at the indices of
    [vec_index]. *)
Definition weightedInfinityNorm_index (vec : list float) (vec_index : list Z)
    (weights : list float) : asserted float :=
  if decide (length vec_index = length weights) then
    let norm := 0%float in
    let product := 0%float in
    match vector_loop (length vec_index) 0
            (λ i '(norm, product),
               k ← vec_index !! i;
               v ← vector_at vec k;
               w ← weights !! i;
               let product := PrimFloat.abs (v * w) in
               Some (if double_gt product norm then product else norm, product))
            (norm, product)
    with
    | Some (norm, _) => Returns norm
    | None => Undefined
    end
  else AssertionFailed "Weights and indices must have same length.".

(** Lines 167-174: the overload that reads [vec] at the indices of
    [vec_index]. *)
Definition weightedL2Norm_index (vec : list float) (vec_index : list Z)
    (weights : list float) : asserted float :=
  if decide (length vec_index = length weights) then
    let squared_norm := 0%float in
    match vector_loop (length vec_index) 0
            (λ i squared_norm,
               k ← vec_index !! i;
               v ← vector_at vec k;
               w ← weights !! i;
               k' ← vec_index !! i;
               v' ← vector_at vec k';
               w' ← weights !! i;
               Some (squared_norm + (v * w) * (v' * w'))%float)
            squared_norm
    with
    | Some squared_norm => Returns (PrimFloat.sqrt squared_norm)
    | None => Undefined
    end
  else AssertionFailed "Weights and indices must have same length.".

End SolverCommonNorms.

Import SolverCommonNorms.

(** The elements of [vec] at the indices of [vec_index], if all are within
    the vector. *)
Definition gather (vec : list float) (vec_index : list Z) : option (list float) :=
  mapM (vector_at vec) vec_index.

(** The products [v_i * w_i]. *)
Definition products (vec weights : list float) : list float :=
  zip_with PrimFloat.mul vec weights.

(** The largest [|p|] of a list met so far, as line 138 updates it. *)
Definition running_max (norm : float) (ps : list float) : float :=
  foldl (λ norm p, if double_gt (PrimFloat.abs p) norm then PrimFloat.abs p else norm)
        norm ps.

(** The sum of the squares of a list, in order, as line 149 updates it. *)
Definition running_sum_of_squares (sum : float) (ps : list float) : float :=
  foldl (λ sum p, (sum + p * p)%float) sum ps.

(* ================================================================== *)
(** ** The order of the doubles, through their specification *)

(** A key whose lexicographic order is the order of the doubles that are
    not NaN: the class and sign first, then exponent and mantissa. *)
Definition order_key (s : SpecFloat.spec_float) : Z * Z * Z :=
  match s with
  | SpecFloat.S754_zero _ => (0, 0, 0)
  | SpecFloat.S754_infinity false => (2, 0, 0)
  | SpecFloat.S754_infinity true => (-2, 0, 0)
  | SpecFloat.S754_nan => (0, 0, 0)
  | SpecFloat.S754_finite false m e => (1, e, Z.pos m)
  | SpecFloat.S754_finite true m e => (-1, - e, Z.neg m)
  end.

Definition lex_compare (a b : Z * Z * Z) : comparison :=
  match a.1.1 ?= b.1.1 with
  | Eq => match a.1.2 ?= b.1.2 with
          | Eq => a.2 ?= b.2
          | c => c
          end
  | c => c
  end.

(** Conversion of an [int] to [size_t]. *)
Definition to_size_t (z : Z) : Z := z mod 2 ^ 64.

(** One [DYNLog(KinErrorValue, ...)] record sent to [Trace::debug()]. *)
Record KinErrorValue : Type := {
  kin_index : Z;
  kin_value : float;
  kin_subModelName : string;
  kin_subModelIndexF : Z;
  kin_fEquation : string
}.

Section PrintLargestErrors.

(** [std::sort(fErr.begin(), fErr.end(), mapcompabs())]: the comparator
    is declared in DYNSolverCommon.h, which is not among the sources. *)
Variable sort_mapcompabs : list (float * Z) → list (float * Z).

(** [Model::getFInfos]: the sub-model name, the local index and the
    equation of a residual. *)
Variable getFInfos : Z → string * Z * string.

(** Lines 112-130.  The vector is sorted in place; the result is the
    vector after the call and the records logged. *)
Definition printLargestErrors (fErr : list (float * Z)) (nbErr : Z)
  : list (float * Z) * option (list KinErrorValue) :=
  let fErr := sort_mapcompabs fErr in
  let size := to_size_t nbErr in
  let size := if Z.of_nat (length fErr) <? size then Z.of_nat (length fErr) else size in
  (fErr,
   vector_loop (Z.to_nat size) 0
     (λ i trace,
        currentErr ← fErr !! i;
        let '(subModelName, subModelIndexF, fEquation) :=
          getFInfos (wrap_int currentErr.2) in
        Some (trace ++ [{| kin_index := currentErr.2; kin_value := currentErr.1;
                           kin_subModelName := subModelName;
                           kin_subModelIndexF := subModelIndexF;
                           kin_fEquation := fEquation |}]))
     []).

(** The record logged for an entry. *)
Definition error_record (currentErr : float * Z) : KinErrorValue :=
  let '(subModelName, subModelIndexF, fEquation) := getFInfos (wrap_int currentErr.2) in
  {| kin_index := currentErr.2; kin_value := currentErr.1;
     kin_subModelName := subModelName; kin_subModelIndexF := subModelIndexF;
     kin_fEquation := fEquation |}.

End PrintLargestErrors.

(** The first error is at least as large as the second, in absolute
    value. *)
Definition magnitude_ge (a b : float * Z) : Prop :=
  PrimFloat.leb (PrimFloat.abs b.1) (PrimFloat.abs a.1) = true.

#[global] Instance magnitude_ge_dec (a b : float * Z) : Decision (magnitude_ge a b) :=
  bool_eq_dec _ _.

(** A sort by decreasing absolute value, used in the examples. *)
Definition sort_by_decreasing_magnitude (fErr : list (float * Z)) : list (float * Z) :=
  merge_sort magnitude_ge fErr.

(** Equation information used in the examples. *)
Definition no_info (i : Z) : string * Z * string := (""%string, i, ""%string).

(* ================================================================== *)
(** ** Lemmas on outcomes and loops *)

Lemma bind_Ok {A B} (k : A → outcome B) (a : A) (tr : list event) :
  (Ok a tr ≫= k) = match k a with
                   | Ok b tr' => Ok b (tr ++ tr')
                   | UB f => UB f
                   end.
Proof. reflexivity. Qed.

Lemma bind_UB {A B} (k : A → outcome B) (f : fault) : (UB f ≫= k) = UB f.
Proof. reflexivity. Qed.

Lemma load_Some {A} (b : buffer) (l : list A) (i : nat) (v : A) :
  l !! i = Some v → load b l i = Ok v [].
Proof. intros H. unfold load. by rewrite H. Qed.

Lemma store_lt {A} (b : buffer) (l : list A) (i : nat) (v : A) :
  (i < length l)%nat → store b l i v = Ok (<[i:=v]> l) [].
Proof. intros H. unfold store. by rewrite decide_True. Qed.

(** A loop whose body keeps an invariant and emits nothing ends in a state
    that satisfies the invariant, having emitted nothing. *)
Lemma for_loop_invariant {S} (P : nat → S → Prop) (body : nat → S → outcome S)
    (n : nat) :
  ∀ (i : nat) (s : S),
    P i s →
    (∀ j t, (i ≤ j < i + n)%nat → P j t → ∃ t', body j t = Ok t' [] ∧ P (Datatypes.S j) t') →
    ∃ s', for_loop n i body s = Ok s' [] ∧ P (i + n)%nat s'.
Proof.
  induction n as [|n IH]; intros i s Hs Hbody.
  - exists s. split; [done|]. by rewrite Nat.add_0_r.
  - destruct (Hbody i s) as (t & Ht & HP); [lia|done|].
    destruct (IH (Datatypes.S i) t HP) as (s' & Hloop & HP').
    { intros j u Hj Hu. apply Hbody; [lia|done]. }
    exists s'. split.
    + simpl. rewrite Ht, bind_Ok, Hloop. done.
    + by replace (i + Datatypes.S n)%nat with (Datatypes.S i + n)%nat by lia.
Qed.

(** Overwriting the next cell extends the copied prefix by one. *)
Lemma insert_copied_prefix {A} (src dst : list A) (j : nat) (v : A) :
  src !! j = Some v → (j < length dst)%nat →
  <[j:=v]> (take j src ++ drop j dst) = take (Datatypes.S j) src ++ drop (Datatypes.S j) dst.
Proof.
  intros Hv Hj.
  assert (length (take j src) = j) as Hlen.
  { apply length_take_le. apply lookup_lt_Some in Hv. lia. }
  destruct (lookup_lt_is_Some_2 dst j Hj) as [d Hd].
  rewrite insert_app_r_alt by lia.
  rewrite Hlen, Nat.sub_diag, (drop_S _ _ _ Hd). simpl.
  rewrite (take_S_r _ _ _ Hv), <- app_assoc. done.
Qed.

Lemma length_copied_prefix {A} (src dst : list A) (j : nat) :
  (j ≤ length src)%nat → (j ≤ length dst)%nat →
  length (take j src ++ drop j dst) = length dst.
Proof.
  intros. rewrite length_app, length_take_le, length_drop by done. lia.
Qed.

Lemma wrap_int_small (z : Z) : INT_MIN ≤ z ≤ INT_MAX → wrap_int z = z.
Proof.
  unfold INT_MIN, INT_MAX, wrap_int. intros H.
  rewrite Z.mod_small; lia.
Qed.

Lemma to_unsigned_small (z : Z) : 0 ≤ z ≤ INT_MAX → to_unsigned z = z.
Proof.
  unfold INT_MAX, to_unsigned. intros H.
  rewrite Z.mod_small; lia.
Qed.

(** Lines 58-60 in closed form. *)
Lemma copy_index_pointers_ok (smj : SparseMatrix) (size : Z) (ptrs : list Z) :
  0 ≤ size < INT_MAX →
  size + 1 ≤ Z.of_nat (length (Ap_ smj)) →
  size + 1 ≤ Z.of_nat (length ptrs) →
  copy_index_pointers smj size ptrs
  = Ok (take (Z.to_nat (size + 1)) (Ap_ smj) ++ drop (Z.to_nat (size + 1)) ptrs) [].
Proof.
  intros Hsize HAp Hptrs. unfold copy_index_pointers.
  rewrite wrap_int_small by (unfold INT_MIN, INT_MAX in *; lia).
  rewrite to_unsigned_small by lia.
  set (k := Z.to_nat (size + 1)).
  destruct (for_loop_invariant
              (λ j (t : list Z), t = take j (Ap_ smj) ++ drop j ptrs)
              (λ i ptrs, v ← load MatAp (Ap_ smj) i; store IndexPtrs ptrs i v)
              k 0%nat ptrs) as (t & Ht & ->).
  - by rewrite take_0, drop_0.
  - intros j u Hj ->.
    destruct (lookup_lt_is_Some_2 (Ap_ smj) j) as [v Hv]; [lia|].
    exists (<[j:=v]> (take j (Ap_ smj) ++ drop j ptrs)). split.
    + rewrite (load_Some _ _ _ _ Hv), bind_Ok, store_lt; [done|].
      rewrite length_copied_prefix; lia.
    + apply insert_copied_prefix; [done|lia].
  - done.
Qed.

(** Lines 61-64 in closed form. *)
Lemma copy_entries_ok (smj : SparseMatrix) (vals : list Z) (dat : list float) :
  0 ≤ nbElem smj ≤ INT_MAX →
  nbElem smj ≤ Z.of_nat (length (Ai_ smj)) →
  nbElem smj ≤ Z.of_nat (length (Ax_ smj)) →
  nbElem smj ≤ Z.of_nat (length vals) →
  nbElem smj ≤ Z.of_nat (length dat) →
  copy_entries smj (vals, dat)
  = Ok (take (Z.to_nat (nbElem smj)) (Ai_ smj) ++ drop (Z.to_nat (nbElem smj)) vals,
        take (Z.to_nat (nbElem smj)) (Ax_ smj) ++ drop (Z.to_nat (nbElem smj)) dat) [].
Proof.
  intros Hn HAi HAx Hvals Hdat. unfold copy_entries.
  rewrite to_unsigned_small by lia.
  set (n := Z.to_nat (nbElem smj)).
  destruct (for_loop_invariant
              (λ j (t : list Z * list float),
                 t = (take j (Ai_ smj) ++ drop j vals, take j (Ax_ smj) ++ drop j dat))
              (λ i vd,
                 r ← load MatAi (Ai_ smj) i;
                 vals ← store IndexVals vd.1 i r;
                 x ← load MatAx (Ax_ smj) i;
                 dat ← store Data vd.2 i x;
                 mret (vals, dat))
              n 0%nat (vals, dat)) as (t & Ht & ->).
  - by rewrite !take_0, !drop_0.
  - intros j u Hj ->.
    destruct (lookup_lt_is_Some_2 (Ai_ smj) j) as [r Hr]; [lia|].
    destruct (lookup_lt_is_Some_2 (Ax_ smj) j) as [x Hx]; [lia|].
    eexists. split.
    + rewrite (load_Some _ _ _ _ Hr), bind_Ok. simpl.
      rewrite store_lt by (rewrite length_copied_prefix; lia).
      rewrite bind_Ok, (load_Some _ _ _ _ Hx), bind_Ok.
      rewrite store_lt by (rewrite length_copied_prefix; lia).
      simpl. reflexivity.
    + f_equal; apply insert_copied_prefix; (done || lia).
  - done.
Qed.

(* ================================================================== *)
(** ** The synchroniser in closed form *)

Lemma reallocated_wf (smj : SparseMatrix) (JJ : SUNMatrix) (size : Z) :
  wf_matrix smj size → wf_backend JJ size →
  size + 1 ≤ Z.of_nat (length (SM_INDEXPTRS_S (reallocated smj JJ size))) ∧
  nbElem smj ≤ Z.of_nat (length (SM_INDEXVALS_S (reallocated smj JJ size))) ∧
  nbElem smj ≤ Z.of_nat (length (SM_DATA_S (reallocated smj JJ size))).
Proof.
  intros (Hsize & Hn & _) (Hptrs & Hvals & Hdat).
  unfold reallocated, grows. destruct (SM_NNZ_S JJ <? nbElem smj) eqn:E; simpl.
  - rewrite !length_replicate. lia.
  - apply Z.ltb_ge in E. lia.
Qed.

Lemma reallocation_ok (smj : SparseMatrix) (JJ : SUNMatrix) (size : Z) :
  0 ≤ size < INT_MAX →
  (if SM_NNZ_S JJ <? nbElem smj then
     _ ← free IndexPtrs;
     _ ← free IndexVals;
     _ ← free Data;
     ptrs ← malloc IndexPtrs (wrap_int (size + 1)) 0;
     vals ← malloc IndexVals (nbElem smj) 0;
     dat ← malloc Data (nbElem smj) 0%float;
     mret ({| SM_NNZ_S := nbElem smj; SM_INDEXPTRS_S := ptrs;
              SM_INDEXVALS_S := vals; SM_DATA_S := dat |}, true)
   else mret (JJ, false))
  = Ok (reallocated smj JJ size, grows smj JJ) (reallocation smj JJ size).
Proof.
  intros Hsize. unfold reallocated, reallocation, grows.
  destruct (SM_NNZ_S JJ <? nbElem smj); [|done].
  rewrite wrap_int_small by (unfold INT_MIN, INT_MAX in *; lia).
  reflexivity.
Qed.

(** The comparison of line 75 (and 83) once the backend array holds the
    [n] entries compared. *)
Lemma memcmp_ne_closed (p q : list Z) (n : Z) :
  0 ≤ n ≤ Z.of_nat (length q) →
  memcmp_ne p q n =
  if decide (n ≤ Z.of_nat (length p)) then
    Ok (bool_decide (take (Z.to_nat n) p ≠ take (Z.to_nat n) q)) [Memcmp n]
  else UB (OutOfBounds LastRowVals n (length p)).
Proof.
  intros Hq. unfold memcmp_ne.
  destruct (decide (n ≤ Z.of_nat (length p))).
  - rewrite !decide_True by lia. reflexivity.
  - rewrite decide_False by lia. reflexivity.
Qed.

Lemma take_synchronised_vals (smj : SparseMatrix) (JJ : SUNMatrix) (size : Z) :
  nbElem smj ≤ Z.of_nat (length (Ai_ smj)) →
  take (Z.to_nat (nbElem smj)) (SM_INDEXVALS_S (synchronised smj JJ size))
  = take (Z.to_nat (nbElem smj)) (Ai_ smj).
Proof.
  intros H. simpl. rewrite take_app_le, take_take, Nat.min_id; [done|].
  rewrite length_take_le; lia.
Qed.

Lemma capacity_synchronised (smj : SparseMatrix) (JJ : SUNMatrix) (size : Z) :
  wf_matrix smj size → wf_backend JJ size →
  capacity (synchronised smj JJ size) = capacity (reallocated smj JJ size).
Proof.
  intros Hm Hb. destruct (reallocated_wf smj JJ size Hm Hb) as (_ & Hv & _).
  destruct Hm as (_ & Hn & _ & HAi & _). unfold capacity. simpl.
  apply length_copied_prefix; lia.
Qed.

Lemma copySparseToKINSOL_closed (smj : SparseMatrix) (JJ : SUNMatrix) (size : Z)
    (lastRowVals : option (list Z)) :
  wf_matrix smj size → wf_backend JJ size →
  copySparseToKINSOL smj JJ size lastRowVals =
  match lastRowVals with
  | None => Ok (synchronised smj JJ size, true) (reallocation smj JJ size)
  | Some snapshot =>
      if significant (SM_NNZ_S JJ) (nbElem smj) || bool_decide (nbElem smj = SM_NNZ_S JJ)
      then
        if decide (nbElem smj ≤ Z.of_nat (length snapshot)) then
          Ok (synchronised smj JJ size,
              grows smj JJ ||
              bool_decide (take (Z.to_nat (nbElem smj)) snapshot
                           ≠ take (Z.to_nat (nbElem smj)) (Ai_ smj)))
             (reallocation smj JJ size ++ [Memcmp (nbElem smj)])
        else UB (OutOfBounds LastRowVals (nbElem smj) (length snapshot))
      else Ok (synchronised smj JJ size, grows smj JJ) (reallocation smj JJ size)
  end.
Proof.
  intros Hm Hb.
  pose proof (reallocated_wf smj JJ size Hm Hb) as (Hptrs0 & Hvals0 & Hdat0).
  pose proof (capacity_synchronised smj JJ size Hm Hb) as Hcap.
  pose proof (take_synchronised_vals smj JJ size) as Htake.
  pose proof Hm as (Hsize & Hn & HAp & HAi & HAx).
  unfold copySparseToKINSOL.
  rewrite reallocation_ok, bind_Ok by done. cbv beta iota zeta.
  rewrite copy_index_pointers_ok by done. rewrite bind_Ok.
  rewrite copy_entries_ok by done. rewrite bind_Ok. cbv beta iota zeta.
  cbn [SM_NNZ_S SM_INDEXPTRS_S SM_INDEXVALS_S SM_DATA_S].
  change {| SM_NNZ_S := nbElem smj;
            SM_INDEXPTRS_S := _ ++ drop _ (SM_INDEXPTRS_S (reallocated smj JJ size));
            SM_INDEXVALS_S := _; SM_DATA_S := _ |}
    with (synchronised smj JJ size).
  destruct lastRowVals as [snapshot|].
  2: { cbn. by rewrite app_nil_r. }
  change (take (Z.to_nat (nbElem smj)) (Ai_ smj) ++ _)
    with (SM_INDEXVALS_S (synchronised smj JJ size)).
  assert ((if 0 <? SM_NNZ_S JJ
           then double_div_int
                  (double_of_int (Z.abs (wrap_int (nbElem smj - SM_NNZ_S JJ))))
                  (SM_NNZ_S JJ)
           else mret 1%float)
          = Ok (if 0 <? SM_NNZ_S JJ
                then PrimFloat.div
                       (double_of_int (Z.abs (wrap_int (nbElem smj - SM_NNZ_S JJ))))
                       (double_of_int (SM_NNZ_S JJ))
                else 1%float) []) as ->.
  { destruct (0 <? SM_NNZ_S JJ) eqn:E; [|done].
    apply Z.ltb_lt in E. unfold double_div_int. by rewrite decide_False by lia. }
  rewrite bind_Ok.
  change (double_ge _ STRUCTURE_CHANGE_TOLERANCE || _)
    with (significant (SM_NNZ_S JJ) (nbElem smj)).
  rewrite memcmp_ne_closed by (unfold capacity in Hcap; lia).
  rewrite Htake by done.
  assert (∀ b : bool, (if b then true else grows smj JJ) = grows smj JJ || b) as Hor.
  { intros []; by rewrite ?orb_true_r, ?orb_false_r. }
  destruct (significant (SM_NNZ_S JJ) (nbElem smj)); cbn [orb].
  - destruct (decide (nbElem smj ≤ Z.of_nat (length snapshot))). 2: done.
    cbn. by rewrite Hor.
  - destruct (decide (nbElem smj = SM_NNZ_S JJ)) as [Heq|Hne];
      [rewrite (bool_decide_eq_true_2 _ Heq)|rewrite (bool_decide_eq_false_2 _ Hne)].
    + destruct (decide (nbElem smj ≤ Z.of_nat (length snapshot))); [|done].
      cbn. by rewrite Hor.
    + cbn. by rewrite app_nil_r.
Qed.

Lemma synchronised_wf (smj : SparseMatrix) (JJ : SUNMatrix) (size : Z) :
  wf_matrix smj size → wf_backend JJ size →
  wf_backend (synchronised smj JJ size) size.
Proof.
  intros Hm Hb.
  destruct (reallocated_wf smj JJ size Hm Hb) as (Hp & Hv & Hd).
  destruct Hm as (Hsize & Hn & HAp & HAi & HAx).
  unfold wf_backend. simpl.
  rewrite !length_copied_prefix by lia. lia.
Qed.

Lemma grows_same_count (smj : SparseMatrix) (JJ : SUNMatrix) :
  nbElem smj = SM_NNZ_S JJ → grows smj JJ = false.
Proof. intros H. unfold grows. apply Z.ltb_ge. lia. Qed.

(* ================================================================== *)
(** ** Verdicts of the synchroniser *)

(** C6 (first-call forcing).  With an absent snapshot every call on a
    well-formed matrix and backend finishes and returns
    [structureChanged = true], whatever the matrix, an empty one included. *)
Theorem C6_absent_snapshot_forces_change (smj : SparseMatrix) (JJ : SUNMatrix)
    (size : Z) :
  wf_matrix smj size → wf_backend JJ size →
  copySparseToKINSOL smj JJ size None
  = Ok (synchronised smj JJ size, true) (reallocation smj JJ size).
Proof. intros Hm Hb. by rewrite copySparseToKINSOL_closed. Qed.

(** The theorem at a matrix without nonzeros on an empty backend. *)
Lemma C6_witness :
  verdict (copySparseToKINSOL empty_matrix empty_backend 1 None) = Some true.
Proof.
  rewrite (C6_absent_snapshot_forces_change empty_matrix empty_backend 1).
  - reflexivity.
  - unfold wf_matrix, INT_MAX. simpl. lia.
  - unfold wf_backend. simpl. lia.
Defined.

(** C2 (pattern-only change at equal size).  When the new count equals
    the backend's count and the snapshot differs from the copied row
    indices in one of the [newNnz] entries, the call returns
    [structureChanged = true]; the thresholds play no role. *)
Theorem C2_pattern_change_at_equal_size (smj : SparseMatrix) (JJ : SUNMatrix)
    (size : Z) (snapshot : list Z) (i : nat) :
  wf_matrix smj size → wf_backend JJ size →
  nbElem smj = SM_NNZ_S JJ →
  nbElem smj ≤ Z.of_nat (length snapshot) →
  Z.of_nat i < nbElem smj →
  snapshot !! i ≠ SM_INDEXVALS_S (synchronised smj JJ size) !! i →
  copySparseToKINSOL smj JJ size (Some snapshot)
  = Ok (synchronised smj JJ size, true) [Memcmp (nbElem smj)].
Proof.
  intros Hm Hb Heq Hsnap Hi Hdiff.
  rewrite copySparseToKINSOL_closed by done.
  rewrite (bool_decide_eq_true_2 _ Heq), orb_true_r.
  rewrite decide_True by done.
  unfold reallocation. rewrite (grows_same_count _ _ Heq). simpl.
  rewrite bool_decide_eq_true_2; [done|].
  intros Htake. apply Hdiff.
  rewrite <- (lookup_take_lt snapshot (Z.to_nat (nbElem smj)) i) by lia.
  rewrite <- (lookup_take_lt (SM_INDEXVALS_S _) (Z.to_nat (nbElem smj)) i) by lia.
  rewrite take_synchronised_vals by (destruct Hm as (_ & _ & _ & ? & _); done).
  by rewrite Htake.
Qed.

(** The theorem at one nonzero whose row moved from 1 to 0. *)
Lemma C2_witness :
  verdict (copySparseToKINSOL one_entry_matrix one_entry_backend 1 (Some [1]))
  = Some true.
Proof.
  rewrite (C2_pattern_change_at_equal_size
             one_entry_matrix one_entry_backend 1 [1] 0%nat).
  - reflexivity.
  - unfold wf_matrix, INT_MAX. simpl. lia.
  - unfold wf_backend. simpl. lia.
  - reflexivity.
  - simpl. lia.
  - simpl. lia.
  - simpl. congruence.
Defined.

(** C8 (idempotent no-op path).  After a first call with a local matrix,
    a second call with the same matrix and a snapshot that matches its row
    indices returns [structureChanged = false]. *)
Theorem C8_second_call_reports_no_change (smj : SparseMatrix) (JJ : SUNMatrix)
    (size : Z) (first_snapshot : option (list Z)) (snapshot : list Z) :
  wf_matrix smj size → wf_backend JJ size →
  snapshot_holds first_snapshot (nbElem smj) →
  nbElem smj ≤ Z.of_nat (length snapshot) →
  take (Z.to_nat (nbElem smj)) snapshot = take (Z.to_nat (nbElem smj)) (Ai_ smj) →
  ∃ JJ1 b1 tr1,
    copySparseToKINSOL smj JJ size first_snapshot = Ok (JJ1, b1) tr1 ∧
    copySparseToKINSOL smj JJ1 size (Some snapshot)
    = Ok (synchronised smj JJ1 size, false) [Memcmp (nbElem smj)].
Proof.
  intros Hm Hb Hfirst Hsnap Hmatch.
  pose proof (synchronised_wf smj JJ size Hm Hb) as Hb1.
  assert (∃ b1 tr1, copySparseToKINSOL smj JJ size first_snapshot
                    = Ok (synchronised smj JJ size, b1) tr1) as (b1 & tr1 & H1).
  { rewrite copySparseToKINSOL_closed by done.
    destruct first_snapshot as [s1|]; [|by eauto]. simpl in Hfirst.
    rewrite decide_True by done.
    destruct (_ || _); eauto. }
  exists (synchronised smj JJ size), b1, tr1. split; [done|].
  rewrite copySparseToKINSOL_closed by done.
  assert (nbElem smj = SM_NNZ_S (synchronised smj JJ size)) as Heq by done.
  rewrite (bool_decide_eq_true_2 _ Heq), orb_true_r.
  rewrite decide_True by done.
  unfold reallocation. rewrite (grows_same_count _ _ Heq). simpl.
  rewrite bool_decide_eq_false_2; [done|]. by intros [].
Qed.

(** The theorem at a matrix of one nonzero and the snapshot [[0]]. *)
Lemma C8_witness :
  ∃ JJ1 b1 tr1,
    copySparseToKINSOL one_entry_matrix one_entry_backend 1 None = Ok (JJ1, b1) tr1 ∧
    verdict (copySparseToKINSOL one_entry_matrix JJ1 1 (Some [0])) = Some false.
Proof.
  destruct (C8_second_call_reports_no_change
              one_entry_matrix one_entry_backend 1 None [0])
    as (JJ1 & b1 & tr1 & H1 & H2).
  - unfold wf_matrix, INT_MAX. simpl. lia.
  - unfold wf_backend. simpl. lia.
  - exact I.
  - simpl. lia.
  - reflexivity.
  - exists JJ1, b1, tr1. split; [exact H1|]. rewrite H2. reflexivity.
Defined.

Lemma significant_1000_1005 : significant 1000 1005 = false.
Proof. vm_compute. reflexivity. Qed.

Lemma significant_1005_1000 : significant 1005 1000 = false.
Proof. vm_compute. reflexivity. Qed.

(** C1, as stated, fails: from 1000 to 1005 nonzeros, with a snapshot
    that agrees with the new row indices on the 1000 common entries, the
    call returns [structureChanged = true]. *)
Lemma C1_counterexample :
  SM_NNZ_S backend_1000 = 1000 ∧ nbElem matrix_1005 = 1005 ∧
  take 1000 (replicate 1000 0) = take 1000 (Ai_ matrix_1005) ∧
  verdict (copySparseToKINSOL matrix_1005 backend_1000 1 (Some (replicate 1000 0)))
  = Some true.
Proof. vm_compute. auto. Qed.

(** C1 (tolerance suppression), amended.  A change of the count between
    1000 and 1005 is below both thresholds.  When the count shrinks from
    1005 to 1000 the call compares nothing and returns
    [structureChanged = false]; when it grows from 1000 to 1005 the growth
    path has flagged the change and the call returns [true]. *)
Theorem C1_tolerance_suppresses_shrink_only (smj : SparseMatrix) (JJ : SUNMatrix)
    (size : Z) (snapshot : list Z) :
  wf_matrix smj size → wf_backend JJ size →
  (SM_NNZ_S JJ = 1005 → nbElem smj = 1000 →
   copySparseToKINSOL smj JJ size (Some snapshot)
   = Ok (synchronised smj JJ size, false) []) ∧
  (SM_NNZ_S JJ = 1000 → nbElem smj = 1005 →
   copySparseToKINSOL smj JJ size (Some snapshot)
   = Ok (synchronised smj JJ size, true) (reallocation smj JJ size)).
Proof.
  intros Hm Hb.
  split; intros HJ Hs; rewrite copySparseToKINSOL_closed by done;
    unfold reallocation, grows; rewrite HJ, Hs.
  - rewrite significant_1005_1000. reflexivity.
  - rewrite significant_1000_1005. reflexivity.
Qed.

(** The theorem at a shrink from 1005 to 1000 nonzeros. *)
Lemma C1_witness :
  verdict (copySparseToKINSOL matrix_1000 backend_1005 1 (Some (replicate 1005 0)))
  = Some false.
Proof.
  destruct (C1_tolerance_suppresses_shrink_only
              matrix_1000 backend_1005 1 (replicate 1005 0)) as [H _].
  - unfold wf_matrix, INT_MAX. simpl. lia.
  - unfold wf_backend. simpl. lia.
  - rewrite H; reflexivity.
Defined.

(* ================================================================== *)
(** ** The comparison against the snapshot *)

(** Every comparison of a finished call reads [newNnz] entries. *)
Lemma comparison_reads_new_count (smj : SparseMatrix) (JJ : SUNMatrix) (size : Z)
    (lastRowVals : option (list Z)) :
  wf_matrix smj size → wf_backend JJ size →
  compares_only (nbElem smj) (events (copySparseToKINSOL smj JJ size lastRowVals)).
Proof.
  intros Hm Hb n. rewrite copySparseToKINSOL_closed by done.
  assert (Memcmp n ∈ reallocation smj JJ size → n = nbElem smj) as Hre.
  { unfold reallocation. destruct (grows smj JJ); intros Hin.
    - repeat (apply elem_of_cons in Hin as [Hin|Hin]; [discriminate|]).
      by apply elem_of_nil in Hin.
    - by apply elem_of_nil in Hin. }
  destruct lastRowVals as [snapshot|]; [|done].
  destruct (_ || _); [|done].
  destruct (decide _); simpl.
  - intros [Hin|Hin]%elem_of_app; [by apply Hre|].
    apply list_elem_of_singleton in Hin. congruence.
  - intros Hin. by apply elem_of_nil in Hin.
Qed.

(** C3, at the failing input.  The coordinator installs a matrix of one
    nonzero on a fresh backend, which leaves a snapshot of one entry; the
    next matrix has two nonzeros, and the comparison reads two entries of
    the one-entry snapshot. *)
Theorem C3_comparison_reads_past_snapshot :
  propagateMatrixStructureChangeToKINSOL one_entry_matrix empty_backend 1 None false
  = Ok ({| SM_NNZ_S := 1; SM_INDEXPTRS_S := [0; 1]; SM_INDEXVALS_S := [0];
           SM_DATA_S := [1%float] |}, Some [0])
       [Free IndexPtrs; Free IndexVals; Free Data; Malloc IndexPtrs 2;
        Malloc IndexVals 1; Malloc Data 1; KLUReInit 1 2; Malloc LastRowVals 1;
        Memcpy 1] ∧
  copySparseToKINSOL two_entry_matrix
    {| SM_NNZ_S := 1; SM_INDEXPTRS_S := [0; 1]; SM_INDEXVALS_S := [0];
       SM_DATA_S := [1%float] |} 1 (Some [0])
  = UB (OutOfBounds LastRowVals 2 1).
Proof. split; vm_compute; reflexivity. Qed.

(* ================================================================== *)
(** ** The coordinator *)

Lemma copySparseToKINSOL_result (smj : SparseMatrix) (JJ JJ' : SUNMatrix) (size : Z)
    (lastRowVals : option (list Z)) (b : bool) (tr : list event) :
  wf_matrix smj size → wf_backend JJ size →
  copySparseToKINSOL smj JJ size lastRowVals = Ok (JJ', b) tr →
  JJ' = synchronised smj JJ size ∧ ∀ nnz ty, KLUReInit nnz ty ∉ tr.
Proof.
  intros Hm Hb. rewrite copySparseToKINSOL_closed by done.
  assert (∀ nnz ty, KLUReInit nnz ty ∉ reallocation smj JJ size) as Hre.
  { intros nnz ty. unfold reallocation. destruct (grows smj JJ).
    - rewrite !not_elem_of_cons. repeat split; try discriminate. apply not_elem_of_nil.
    - apply not_elem_of_nil. }
  destruct lastRowVals as [snapshot|].
  - destruct (_ || _).
    + destruct (decide _); [|discriminate]. intros [= <- <- <-]. split; [done|].
      intros nnz ty [Hin|Hin]%elem_of_app; [by eapply Hre|].
      apply list_elem_of_singleton in Hin. discriminate.
    + intros [= <- <- <-]. done.
  - intros [= <- <- <-]. done.
Qed.

(** C5 (frame of the coordinator).  On a verdict [true] the coordinator
    calls the KLU re-initialisation with the new count and mode 2, frees
    the old snapshot if there is one, allocates [newNnz] entries and
    copies the backend's row indices into them.  On a verdict [false] it
    does nothing after the synchroniser: no re-initialisation, and the
    snapshot is the one handed in. *)
Theorem C5_coordinator_acts_on_verdict (smj : SparseMatrix) (JJ JJ' : SUNMatrix)
    (size : Z) (lastRowVals : option (list Z)) (log b : bool) (tr : list event) :
  wf_matrix smj size → wf_backend JJ size →
  copySparseToKINSOL smj JJ size lastRowVals = Ok (JJ', b) tr →
  (∀ nnz ty, KLUReInit nnz ty ∉ tr) ∧
  propagateMatrixStructureChangeToKINSOL smj JJ size lastRowVals log =
  if b then
    Ok (JJ', Some (take (Z.to_nat (nbElem smj)) (SM_INDEXVALS_S JJ')))
       (tr ++ [KLUReInit (nbElem smj) 2]
           ++ (if lastRowVals is Some _ then [Free LastRowVals] else [])
           ++ [Malloc LastRowVals (nbElem smj); Memcpy (nbElem smj)]
           ++ (if log then [TraceDebug "MatrixStructureChange"] else []))
  else Ok (JJ', lastRowVals) tr.
Proof.
  intros Hm Hb Hcopy.
  destruct (copySparseToKINSOL_result _ _ _ _ _ _ _ Hm Hb Hcopy) as [-> Hno].
  split; [done|].
  pose proof (synchronised_wf smj JJ size Hm Hb) as (_ & Hv & _).
  pose proof Hm as (_ & Hn & _).
  unfold propagateMatrixStructureChangeToKINSOL.
  rewrite Hcopy, bind_Ok. destruct b; [|cbn; by rewrite app_nil_r].
  change (SM_NNZ_S (synchronised smj JJ size)) with (nbElem smj) in *.
  assert (memcpy (replicate (Z.to_nat (nbElem smj)) 0)
                 (SM_INDEXVALS_S (synchronised smj JJ size)) (nbElem smj)
          = Ok (take (Z.to_nat (nbElem smj)) (SM_INDEXVALS_S (synchronised smj JJ size)))
               [Memcpy (nbElem smj)]) as Hcpy.
  { unfold memcpy. rewrite length_replicate, !decide_True by lia. cbn.
    by rewrite drop_replicate, Nat.sub_diag, app_nil_r. }
  unfold SUNLinSol_KLUReInit, free, malloc, emit.
  destruct lastRowVals, log; rewrite !bind_Ok; cbn [mret outcome_ret];
    rewrite !bind_Ok, Hcpy; reflexivity.
Qed.

(** The theorem at a call whose verdict is [false]: the snapshot stays. *)
Lemma C5_witness :
  value (propagateMatrixStructureChangeToKINSOL
           one_entry_matrix one_entry_backend 1 (Some [0]) true)
  = Some (synchronised one_entry_matrix one_entry_backend 1, Some [0]).
Proof.
  destruct (C5_coordinator_acts_on_verdict
              one_entry_matrix one_entry_backend
              (synchronised one_entry_matrix one_entry_backend 1)
              1 (Some [0]) true false [Memcmp 1]) as [_ H].
  - unfold wf_matrix, INT_MAX. simpl. lia.
  - unfold wf_backend. simpl. lia.
  - vm_compute. reflexivity.
  - rewrite H. reflexivity.
Defined.

(* ================================================================== *)
(** ** Runs of the synchroniser *)

(** A call on well-formed arguments whose snapshot, if any, holds the
    entries compared finishes, with the backend matrix [synchronised]. *)
Lemma copySparseToKINSOL_returns (smj : SparseMatrix) (JJ : SUNMatrix) (size : Z)
    (lastRowVals : option (list Z)) :
  wf_matrix smj size → wf_backend JJ size →
  snapshot_holds lastRowVals (nbElem smj) →
  ∃ b tr, copySparseToKINSOL smj JJ size lastRowVals
          = Ok (synchronised smj JJ size, b) tr.
Proof.
  intros Hm Hb Hs. rewrite copySparseToKINSOL_closed by done.
  destruct lastRowVals as [snapshot|]; [|by eauto]. simpl in Hs.
  rewrite decide_True by done.
  destruct (_ || _); eauto.
Qed.

(** A call whose count is at least the allocated capacity leaves a
    capacity equal to that count. *)
Lemma capacity_after_call (smj : SparseMatrix) (JJ : SUNMatrix) (size : Z) :
  wf_matrix smj size → wf_backend JJ size →
  Z.of_nat (capacity JJ) ≤ nbElem smj →
  Z.of_nat (capacity (synchronised smj JJ size)) = nbElem smj.
Proof.
  intros Hm Hb Hcap. rewrite capacity_synchronised by done.
  destruct Hm as (_ & Hn & _). destruct Hb as (_ & Hv & _).
  unfold capacity, reallocated, grows in *.
  destruct (SM_NNZ_S JJ <? nbElem smj) eqn:E; simpl.
  - rewrite length_replicate. lia.
  - apply Z.ltb_ge in E. lia.
Qed.

(** C7, as stated, fails: on a backend that reports 1 nonzero and has
    capacity 3, the calls with 1 and then 2 nonzeros have nondecreasing
    counts, and leave capacities 3 and then 2. *)
Lemma C7_counterexample :
  wf_backend backend_1_of_3 1 ∧
  nondecreasing [SM_NNZ_S backend_1_of_3; nbElem one_entry_matrix;
                 nbElem two_entry_matrix] ∧
  capacity backend_1_of_3 = 3%nat ∧
  capacities (run_calls [(one_entry_matrix, None); (two_entry_matrix, None)]
                        backend_1_of_3 1)
  = Some [3%nat; 2%nat].
Proof.
  split; [|split; [|split]].
  - unfold wf_backend. simpl. lia.
  - simpl. lia.
  - reflexivity.
  - vm_compute. reflexivity.
Qed.

(** The capacity after a call: the new count on growth, unchanged
    otherwise. *)
Lemma capacity_after_any_call (smj : SparseMatrix) (JJ : SUNMatrix) (size : Z) :
  wf_matrix smj size → wf_backend JJ size →
  Z.of_nat (capacity (synchronised smj JJ size))
  = if SM_NNZ_S JJ <? nbElem smj then nbElem smj else Z.of_nat (capacity JJ).
Proof.
  intros Hm Hb. rewrite capacity_synchronised by done.
  destruct Hm as (_ & Hn & _).
  unfold capacity, reallocated, grows.
  destruct (SM_NNZ_S JJ <? nbElem smj); simpl; [|done].
  rewrite length_replicate. lia.
Qed.

(** Along nondecreasing counts that start at or above a capacity, every
    growing call clears that capacity. *)
Lemma growth_clears_nondecreasing (counts : list Z) :
  ∀ start_capacity reported,
    nondecreasing (reported :: counts) → start_capacity ≤ reported →
    growth_clears start_capacity reported counts.
Proof.
  induction counts as [|count rest IH]; intros c r Hsorted Hle; [done|].
  destruct Hsorted as [Hhead Hrest]. simpl. split; [lia|].
  apply IH; [done|lia].
Qed.

Lemma nondecreasing_cons2 (a b : Z) (l : list Z) :
  nondecreasing (a :: b :: l) ↔ a ≤ b ∧ nondecreasing (b :: l).
Proof. reflexivity. Qed.

(** A finished run is a finished first call followed by a finished run
    from the backend matrix it leaves. *)
Lemma run_calls_cons (smj : SparseMatrix) (lastRowVals : option (list Z))
    (rest : list (SparseMatrix * option (list Z))) (JJ : SUNMatrix) (size : Z)
    (states : list SUNMatrix) (tr : list event) :
  wf_matrix smj size → wf_backend JJ size →
  run_calls ((smj, lastRowVals) :: rest) JJ size = Ok states tr →
  ∃ states' tr',
    states = synchronised smj JJ size :: states' ∧
    run_calls rest (synchronised smj JJ size) size = Ok states' tr'.
Proof.
  intros Hm Hb Hrun. simpl in Hrun.
  destruct (copySparseToKINSOL smj JJ size lastRowVals) as [[JJ' b] tr1|f] eqn:Hcopy;
    [|done].
  destruct (copySparseToKINSOL_result _ _ _ _ _ _ _ Hm Hb Hcopy) as [-> _].
  rewrite bind_Ok in Hrun.
  destruct (run_calls rest (synchronised smj JJ size) size) as [states' tr'|f] eqn:Hrest;
    [|done].
  injection Hrun as <- _. by exists states', tr'.
Qed.

(** C7 (growth monotonicity), amended.  A run of calls finishes when each
    snapshot holds the entries compared.  After every call of a finished
    run the reported count is that of the call's matrix.  When the counts
    of a finished run are nondecreasing, the capacity never shrinks exactly
    when every call that grows the reported count brings it to at least
    the capacity the backend started with. *)
Theorem C7_capacity_shrinks_only_below_start
    (calls : list (SparseMatrix * option (list Z))) (size : Z) :
  ∀ JJ : SUNMatrix,
    wf_backend JJ size →
    Forall (λ c, wf_matrix c.1 size) calls →
    (Forall (λ c, snapshot_holds c.2 (nbElem c.1)) calls →
     ∃ states tr, run_calls calls JJ size = Ok states tr) ∧
    ∀ states tr,
      run_calls calls JJ size = Ok states tr →
      SM_NNZ_S <$> states = (nbElem ∘ fst) <$> calls ∧
      (nondecreasing ((nbElem ∘ fst) <$> calls) →
       nondecreasing ((Z.of_nat ∘ capacity) <$> (JJ :: states)) ↔
       growth_clears (Z.of_nat (capacity JJ)) (SM_NNZ_S JJ)
                     ((nbElem ∘ fst) <$> calls)).
Proof.
  induction calls as [|[smj snap] rest IH]; intros JJ Hb Hwf.
  { split; [intros _; by exists [], []|].
    intros states tr [= <- _]. repeat split; simpl; done. }
  apply Forall_cons in Hwf as [Hm Hwf]. simpl in Hm.
  pose proof (synchronised_wf smj JJ size Hm Hb) as Hb1.
  destruct (IH (synchronised smj JJ size) Hb1 Hwf) as [IHfin IHall].
  split.
  - intros [Hs Hsnaps]%Forall_cons. simpl in Hs.
    destruct (copySparseToKINSOL_returns smj JJ size snap Hm Hb Hs) as (b & tr & Hcopy).
    destruct (IHfin Hsnaps) as (states & tr' & Hrun).
    exists (synchronised smj JJ size :: states), (tr ++ tr' ++ []).
    simpl. rewrite Hcopy, bind_Ok, Hrun. reflexivity.
  - intros states tr Hrun.
    destruct (run_calls_cons _ _ _ _ _ _ _ Hm Hb Hrun) as (states' & tr' & -> & Hrest).
    destruct (IHall states' tr' Hrest) as [Hnnz Hcaps].
    split; [rewrite !fmap_cons, Hnnz; reflexivity|].
    intros Hsorted. rewrite !fmap_cons in *.
    change ((nbElem ∘ fst) (smj, snap)) with (nbElem smj) in *.
    assert (nondecreasing ((nbElem ∘ fst) <$> rest)) as Hsorted'
      by (by destruct Hsorted).
    specialize (Hcaps Hsorted').
    change (SM_NNZ_S (synchronised smj JJ size)) with (nbElem smj) in Hcaps.
    pose proof (capacity_after_any_call smj JJ size Hm Hb) as Hcap.
    rewrite (nondecreasing_cons2 _ _ (_ <$> states')), Hcaps.
    change ((Z.of_nat ∘ capacity) ?J) with (Z.of_nat (capacity J)).
    cbn [growth_clears]. rewrite Hcap.
    destruct (SM_NNZ_S JJ <? nbElem smj) eqn:E;
      [apply Z.ltb_lt in E|apply Z.ltb_ge in E].
    + split; intros [Hle _];
        (split; [|apply growth_clears_nondecreasing; [exact Hsorted|]]); lia.
    + split; intros [_ Hclear]; (split; [lia|done]).
Qed.

(** The theorem at the calls with 1 and then 3 nonzeros on a backend that
    reports 1 nonzero and has room for 3. *)
Lemma C7_witness :
  ∃ states tr,
    run_calls [(one_entry_matrix, None); (three_entry_matrix, None)] backend_1_of_3 1
    = Ok states tr ∧
    SM_NNZ_S <$> states = [1; 3] ∧
    nondecreasing ((Z.of_nat ∘ capacity) <$> (backend_1_of_3 :: states)).
Proof.
  destruct (C7_capacity_shrinks_only_below_start
              [(one_entry_matrix, None); (three_entry_matrix, None)] 1 backend_1_of_3)
    as [Hfin Hall].
  - unfold wf_backend. simpl. lia.
  - repeat constructor; unfold INT_MAX; simpl; lia.
  - destruct Hfin as (states & tr & Hrun); [repeat constructor|].
    destruct (Hall states tr Hrun) as [Hnnz Hcaps].
    exists states, tr. split; [exact Hrun|]. split; [exact Hnnz|].
    apply Hcaps; unfold capacity; simpl; lia.
Defined.

(* ================================================================== *)
(** ** Independence of the verdict from the values *)

Lemma outcome_rel_refl {A} (m : outcome A) : outcome_rel eq m m.
Proof. by destruct m. Qed.

Lemma bind_rel {A1 A2 B1 B2} (R : A1 → A2 → Prop) (Q : B1 → B2 → Prop)
    (m1 : outcome A1) (m2 : outcome A2) (k1 : A1 → outcome B1) (k2 : A2 → outcome B2) :
  outcome_rel R m1 m2 →
  (∀ a1 a2, R a1 a2 → outcome_rel Q (k1 a1) (k2 a2)) →
  outcome_rel Q (m1 ≫= k1) (m2 ≫= k2).
Proof.
  intros Hm Hk. destruct m1 as [a1 tr1|f1], m2 as [a2 tr2|f2]; try done.
  destruct Hm as [HR <-]. rewrite !bind_Ok.
  specialize (Hk a1 a2 HR).
  destruct (k1 a1), (k2 a2); try done.
  destruct Hk as [HQ <-]. done.
Qed.

Lemma for_loop_rel {S1 S2} (R : S1 → S2 → Prop)
    (body1 : nat → S1 → outcome S1) (body2 : nat → S2 → outcome S2) (n : nat) :
  (∀ j t1 t2, R t1 t2 → outcome_rel R (body1 j t1) (body2 j t2)) →
  ∀ i s1 s2, R s1 s2 → outcome_rel R (for_loop n i body1 s1) (for_loop n i body2 s2).
Proof.
  intros Hbody. induction n as [|n IH]; intros i s1 s2 Hs.
  - done.
  - simpl. eapply bind_rel; [by apply Hbody|]. intros t1 t2 Ht. by apply IH.
Qed.

(** Two loads from arrays of one length succeed or fail together. *)
Lemma load_rel {A} (b : buffer) (l1 l2 : list A) (i : nat) :
  length l1 = length l2 → outcome_rel (λ _ _, True) (load b l1 i) (load b l2 i).
Proof.
  intros Hlen. unfold load.
  destruct (l1 !! i) eqn:E1, (l2 !! i) eqn:E2; simpl; try done.
  - apply lookup_lt_Some in E1. apply lookup_ge_None in E2. lia.
  - apply lookup_lt_Some in E2. apply lookup_ge_None in E1. lia.
  - by rewrite Hlen.
Qed.

(** Two stores into arrays of one length succeed or fail together and
    leave arrays of one length. *)
Lemma store_rel {A} (b : buffer) (l1 l2 : list A) (i : nat) (v1 v2 : A) :
  length l1 = length l2 →
  outcome_rel (λ t1 t2, length t1 = length t2) (store b l1 i v1) (store b l2 i v2).
Proof.
  intros Hlen. unfold store. rewrite Hlen.
  destruct (decide (i < length l2)%nat); simpl; [|done].
  by rewrite !length_insert.
Qed.

Lemma copy_entries_rel (smj1 smj2 : SparseMatrix) (vals : list Z)
    (dat1 dat2 : list float) :
  nbElem smj1 = nbElem smj2 → Ai_ smj1 = Ai_ smj2 →
  length (Ax_ smj1) = length (Ax_ smj2) →
  length dat1 = length dat2 →
  outcome_rel (λ vd1 vd2, vd1.1 = vd2.1 ∧ length vd1.2 = length vd2.2)
    (copy_entries smj1 (vals, dat1)) (copy_entries smj2 (vals, dat2)).
Proof.
  intros Hn HAi HAx Hdat. unfold copy_entries. rewrite Hn, HAi.
  apply for_loop_rel; [|done].
  intros j [v1 d1] [v2 d2] [Hv Hd]. simpl in Hv, Hd. subst v2. simpl.
  eapply bind_rel; [apply outcome_rel_refl|]. intros r ? <-.
  eapply bind_rel; [apply outcome_rel_refl|]. intros v ? <-.
  eapply bind_rel; [by apply (load_rel MatAx)|]. intros x1 x2 _.
  eapply bind_rel; [by apply (store_rel Data)|]. intros t1 t2 Ht.
  done.
Qed.

(** C10 (the verdict does not depend on the values).  Two calls whose
    local matrices have the same count, column pointers and row indices,
    on the same backend, size and snapshot, return the same verdict (or
    stop on the same fault), whatever the two value arrays hold. *)
Theorem C10_verdict_independent_of_values (smj1 smj2 : SparseMatrix)
    (JJ : SUNMatrix) (size : Z) (lastRowVals : option (list Z)) :
  nbElem smj1 = nbElem smj2 → Ap_ smj1 = Ap_ smj2 → Ai_ smj1 = Ai_ smj2 →
  length (Ax_ smj1) = length (Ax_ smj2) →
  decision (copySparseToKINSOL smj1 JJ size lastRowVals)
  = decision (copySparseToKINSOL smj2 JJ size lastRowVals).
Proof.
  intros Hn HAp HAi HAx.
  cut (outcome_rel (λ r1 r2 : SUNMatrix * bool, r1.2 = r2.2)
         (copySparseToKINSOL smj1 JJ size lastRowVals)
         (copySparseToKINSOL smj2 JJ size lastRowVals)).
  { unfold decision.
    destruct (copySparseToKINSOL smj1 _ _ _) as [[J1 b1] tr1|f1],
             (copySparseToKINSOL smj2 _ _ _) as [[J2 b2] tr2|f2]; simpl; try done.
    - by intros [-> _].
    - by intros ->. }
  unfold copySparseToKINSOL, copy_index_pointers. rewrite <- Hn, <- HAp.
  eapply bind_rel; [apply outcome_rel_refl|]. intros [J0 msc] ? <-.
  cbn [SM_NNZ_S SM_INDEXPTRS_S SM_INDEXVALS_S SM_DATA_S].
  eapply bind_rel; [apply outcome_rel_refl|]. intros ptrs ? <-.
  eapply bind_rel; [by apply copy_entries_rel|].
  intros [v1 d1] [v2 d2] [Hv _]. simpl in Hv. subst v2.
  cbn [SM_NNZ_S SM_INDEXPTRS_S SM_INDEXVALS_S SM_DATA_S].
  eapply bind_rel; [apply outcome_rel_refl|]. intros b ? <-.
  done.
Qed.

(** The theorem at two matrices that differ in their one value. *)
Lemma C10_witness :
  decision (copySparseToKINSOL one_entry_matrix one_entry_backend 1 (Some [1]))
  = decision (copySparseToKINSOL one_entry_matrix_scaled one_entry_backend 1 (Some [1])).
Proof.
  apply (C10_verdict_independent_of_values
           one_entry_matrix one_entry_matrix_scaled one_entry_backend 1 (Some [1]));
    reflexivity.
Defined.

(* ================================================================== *)
(** ** The profiler *)


Lemma double_div_int_nonzero (x : float) (d : Z) :
  d ≠ 0 → double_div_int x d = Ok (PrimFloat.div x (double_of_int d)) [].
Proof. intros H. unfold double_div_int. by rewrite decide_False. Qed.

(** The ratio query never divides by zero. *)
Lemma getSymbolicToNumericalRatio_returns (p : SolverProfiler) :
  getSymbolicToNumericalRatio p
  = Ok (if decide (numericalOnlyFactorizations_ p = 0) then 0%float
        else PrimFloat.div (double_of_int (symbolicFactorizations_ p))
                           (double_of_int (numericalOnlyFactorizations_ p))) [].
Proof.
  unfold getSymbolicToNumericalRatio.
  destruct (decide (numericalOnlyFactorizations_ p = 0)); [done|].
  by apply double_div_int_nonzero.
Qed.

(** The report is produced whenever the last division has a nonzero
    denominator or is not reached. *)
Lemma printStatistics_returns (p : SolverProfiler) :
  falsePositiveStructureChanges_ p ≤ 0 ∨ symbolicFactorizations_ p ≠ 0 →
  ∃ report, printStatistics p = Ok tt [TraceInfo report].
Proof.
  intros Hlast. unfold printStatistics.
  rewrite getSymbolicToNumericalRatio_returns.
  repeat match goal with
         | |- context [0 <? ?d] =>
             let E := fresh "E" in
             destruct (0 <? d) eqn:E;
             [apply Z.ltb_lt in E; rewrite ?double_div_int_nonzero by lia|
              apply Z.ltb_ge in E]
         end;
    rewrite ?bind_Ok; cbn [mret outcome_ret]; rewrite ?bind_Ok; unfold emit;
    try (eexists; reflexivity); lia.
Qed.

(** Whenever a false positive was logged and no symbolic factorisation
    was, the report stops on the division of line 187. *)
Lemma printStatistics_faults (p : SolverProfiler) :
  0 < falsePositiveStructureChanges_ p → symbolicFactorizations_ p = 0 →
  printStatistics p = UB DivisionByZero.
Proof.
  intros Hfp Hsym. unfold printStatistics.
  rewrite getSymbolicToNumericalRatio_returns.
  rewrite Hsym. apply Z.ltb_lt in Hfp. rewrite Hfp.
  change (0 <? 0) with false.
  repeat match goal with
         | |- context [0 <? ?d] =>
             let E := fresh "E" in
             destruct (0 <? d) eqn:E;
             [apply Z.ltb_lt in E; rewrite ?(double_div_int_nonzero _ d) by lia|]
         end;
    rewrite ?bind_Ok; cbn [mret outcome_ret]; rewrite ?bind_Ok; reflexivity.
Qed.

(** C4, at the failing input.  After one structure change logged as not
    necessary, and no symbolic factorisation, [printStatistics] divides the
    total symbolic time by a count of zero. *)
Theorem C4_printStatistics_divides_by_zero :
  printStatistics (logStructureChange new false 5 0.5) = UB DivisionByZero.
Proof. vm_compute. reflexivity. Qed.

(** C9 (profiler arithmetic).  The ratio query returns the symbolic count
    divided by the numerical-only count, and 0 when the latter is 0; after
    two symbolic and one numerical factorisations on a new profiler it
    returns 2.0; after [reset] every counter, every sum and every query is
    zero. *)
Theorem C9_ratio_and_reset :
  (∀ p, getSymbolicToNumericalRatio p
        = Ok (if decide (numericalOnlyFactorizations_ p = 0) then 0%float
              else PrimFloat.div (double_of_int (symbolicFactorizations_ p))
                                 (double_of_int (numericalOnlyFactorizations_ p))) []) ∧
  (∀ t1 t2 t3,
     getSymbolicToNumericalRatio
       (logNumericalFactorization
          (logSymbolicFactorization (logSymbolicFactorization new t1) t2) t3)
     = Ok 2%float [] ∧
     getSymbolicToNumericalRatio
       (logSymbolicFactorization
          (logNumericalFactorization (logSymbolicFactorization new t1) t2) t3)
     = Ok 2%float [] ∧
     getSymbolicToNumericalRatio
       (logSymbolicFactorization
          (logSymbolicFactorization (logNumericalFactorization new t1) t2) t3)
     = Ok 2%float []) ∧
  (∀ p,
     symbolicFactorizations_ (reset p) = 0 ∧
     numericalOnlyFactorizations_ (reset p) = 0 ∧
     structureChangeDetections_ (reset p) = 0 ∧
     falsePositiveStructureChanges_ (reset p) = 0 ∧
     jacobianEvaluations_ (reset p) = 0 ∧
     totalSymbolicTime_ (reset p) = 0%float ∧
     totalNumericalTime_ (reset p) = 0%float ∧
     totalJacobianTime_ (reset p) = 0%float ∧
     totalNnzDiff_ (reset p) = 0%float ∧
     totalChangeRatio_ (reset p) = 0%float ∧
     getSymbolicFactorizationCount (reset p) = 0 ∧
     getNumericalFactorizationCount (reset p) = 0 ∧
     getTotalSymbolicTime (reset p) = 0%float ∧
     getTotalNumericalTime (reset p) = 0%float ∧
     getFalsePositiveCount (reset p) = 0 ∧
     getSymbolicToNumericalRatio (reset p) = Ok 0%float []).
Proof.
  split; [exact getSymbolicToNumericalRatio_returns|].
  split.
  - intros t1 t2 t3. repeat split; vm_compute; reflexivity.
  - intros p. repeat split.
Qed.

(* ================================================================== *)
(** ** Further properties of the synchroniser *)

(** X1.  A call on well-formed arguments whose snapshot holds the entries
    compared finishes, and the backend matrix then holds the local one:
    its count, its [size + 1] column pointers, its row indices and its
    values. *)
Theorem X1_copy_installs_local_matrix (smj : SparseMatrix) (JJ : SUNMatrix)
    (size : Z) (lastRowVals : option (list Z)) :
  wf_matrix smj size → wf_backend JJ size →
  snapshot_holds lastRowVals (nbElem smj) →
  ∃ JJ' b tr,
    copySparseToKINSOL smj JJ size lastRowVals = Ok (JJ', b) tr ∧
    SM_NNZ_S JJ' = nbElem smj ∧
    take (Z.to_nat (size + 1)) (SM_INDEXPTRS_S JJ') = take (Z.to_nat (size + 1)) (Ap_ smj) ∧
    take (Z.to_nat (nbElem smj)) (SM_INDEXVALS_S JJ') = take (Z.to_nat (nbElem smj)) (Ai_ smj) ∧
    take (Z.to_nat (nbElem smj)) (SM_DATA_S JJ') = take (Z.to_nat (nbElem smj)) (Ax_ smj).
Proof.
  intros Hm Hb Hs.
  destruct (copySparseToKINSOL_returns smj JJ size lastRowVals Hm Hb Hs) as (b & tr & H).
  destruct Hm as (Hsize & Hn & HAp & HAi & HAx).
  exists (synchronised smj JJ size), b, tr. split; [done|]. split; [done|].
  simpl. repeat split.
  all: rewrite take_app_le, take_take, Nat.min_id; [done|rewrite length_take_le; lia].
Qed.

(** The theorem at a matrix of two nonzeros on a backend of one. *)
Lemma X1_witness :
  ∃ JJ' b tr,
    copySparseToKINSOL two_entry_matrix one_entry_backend 1 None = Ok (JJ', b) tr ∧
    SM_NNZ_S JJ' = 2 ∧
    take 2 (SM_INDEXPTRS_S JJ') = [0; 2] ∧
    take 2 (SM_INDEXVALS_S JJ') = [0; 1] ∧
    take 2 (SM_DATA_S JJ') = [1%float; 1%float].
Proof.
  apply (X1_copy_installs_local_matrix two_entry_matrix one_entry_backend 1 None).
  - unfold wf_matrix, INT_MAX. simpl. lia.
  - unfold wf_backend. simpl. lia.
  - exact I.
Defined.

(** X2.  A call that does not grow the count frees and allocates nothing:
    the three arrays keep their capacity, and the cells past the new
    count keep what they held. *)
Theorem X2_no_growth_keeps_buffers (smj : SparseMatrix) (JJ JJ' : SUNMatrix)
    (size : Z) (lastRowVals : option (list Z)) (b : bool) (tr : list event) :
  wf_matrix smj size → wf_backend JJ size →
  nbElem smj ≤ SM_NNZ_S JJ →
  copySparseToKINSOL smj JJ size lastRowVals = Ok (JJ', b) tr →
  (∀ e, e ∈ tr → e = Memcmp (nbElem smj)) ∧
  length (SM_INDEXPTRS_S JJ') = length (SM_INDEXPTRS_S JJ) ∧
  length (SM_INDEXVALS_S JJ') = length (SM_INDEXVALS_S JJ) ∧
  length (SM_DATA_S JJ') = length (SM_DATA_S JJ) ∧
  drop (Z.to_nat (size + 1)) (SM_INDEXPTRS_S JJ') = drop (Z.to_nat (size + 1)) (SM_INDEXPTRS_S JJ) ∧
  drop (Z.to_nat (nbElem smj)) (SM_INDEXVALS_S JJ') = drop (Z.to_nat (nbElem smj)) (SM_INDEXVALS_S JJ) ∧
  drop (Z.to_nat (nbElem smj)) (SM_DATA_S JJ') = drop (Z.to_nat (nbElem smj)) (SM_DATA_S JJ).
Proof.
  intros Hm Hb Hle Hcopy.
  assert (grows smj JJ = false) as Hg by (apply Z.ltb_ge; lia).
  rewrite copySparseToKINSOL_closed in Hcopy by done.
  unfold reallocation in Hcopy. rewrite Hg in Hcopy.
  assert (JJ' = synchronised smj JJ size ∧ (tr = [] ∨ tr = [Memcmp (nbElem smj)]))
    as [-> Htr].
  { destruct lastRowVals as [s|].
    - destruct (_ || _).
      + destruct (decide _); [|done]. injection Hcopy as <- <- <-. auto.
      + injection Hcopy as <- <- <-. auto.
    - injection Hcopy as <- <- <-. auto. }
  destruct Hm as (Hsize & Hn & HAp & HAi & HAx). destruct Hb as (Hp & Hv & Hd).
  split.
  { intros e He. destruct Htr as [-> | ->].
    - by apply elem_of_nil in He.
    - by apply list_elem_of_singleton in He. }
  unfold synchronised, reallocated. rewrite Hg. simpl.
  rewrite !length_copied_prefix by lia.
  repeat split.
  all: rewrite drop_app_ge by (rewrite length_take_le; lia).
  all: rewrite length_take_le by lia.
  all: by rewrite Nat.sub_diag.
Qed.

(** The theorem at a shrink from three cells to one nonzero. *)
Lemma X2_witness :
  ∃ JJ' b tr,
    copySparseToKINSOL one_entry_matrix backend_1_of_3 1 None = Ok (JJ', b) tr ∧
    drop 1 (SM_INDEXVALS_S JJ') = [1; 2].
Proof.
  destruct (copySparseToKINSOL_returns one_entry_matrix backend_1_of_3 1 None)
    as (b & tr & H).
  - unfold wf_matrix, INT_MAX. simpl. lia.
  - unfold wf_backend. simpl. lia.
  - exact I.
  - exists (synchronised one_entry_matrix backend_1_of_3 1), b, tr. split; [exact H|].
    apply (X2_no_growth_keeps_buffers one_entry_matrix backend_1_of_3
             (synchronised one_entry_matrix backend_1_of_3 1) 1 None b tr).
    + unfold wf_matrix, INT_MAX. simpl. lia.
    + unfold wf_backend. simpl. lia.
    + simpl. lia.
    + exact H.
Defined.

(** X3.  A call that grows the count frees the three arrays, allocates
    [size + 1], [newNnz] and [newNnz] cells, leaves arrays that hold the
    local matrix and nothing else, and returns [structureChanged = true]
    whatever the snapshot. *)
Theorem X3_growth_reallocates_and_flags (smj : SparseMatrix) (JJ JJ' : SUNMatrix)
    (size : Z) (lastRowVals : option (list Z)) (b : bool) (tr : list event) :
  wf_matrix smj size → wf_backend JJ size →
  SM_NNZ_S JJ < nbElem smj →
  copySparseToKINSOL smj JJ size lastRowVals = Ok (JJ', b) tr →
  b = true ∧
  take 6 tr = [Free IndexPtrs; Free IndexVals; Free Data;
               Malloc IndexPtrs (size + 1); Malloc IndexVals (nbElem smj);
               Malloc Data (nbElem smj)] ∧
  SM_INDEXPTRS_S JJ' = take (Z.to_nat (size + 1)) (Ap_ smj) ∧
  SM_INDEXVALS_S JJ' = take (Z.to_nat (nbElem smj)) (Ai_ smj) ∧
  SM_DATA_S JJ' = take (Z.to_nat (nbElem smj)) (Ax_ smj) ∧
  Z.of_nat (capacity JJ') = nbElem smj.
Proof.
  intros Hm Hb Hlt Hcopy.
  assert (grows smj JJ = true) as Hg by (apply Z.ltb_lt; lia).
  rewrite copySparseToKINSOL_closed in Hcopy by done.
  unfold reallocation in Hcopy. rewrite Hg in Hcopy.
  assert (JJ' = synchronised smj JJ size ∧ b = true ∧
          take 6 tr = [Free IndexPtrs; Free IndexVals; Free Data;
                       Malloc IndexPtrs (size + 1); Malloc IndexVals (nbElem smj);
                       Malloc Data (nbElem smj)]) as (-> & -> & Htr).
  { destruct lastRowVals as [s|].
    - destruct (_ || _).
      + destruct (decide _); [|done]. injection Hcopy as <- <- <-. repeat split; reflexivity.
      + injection Hcopy as <- <- <-. repeat split; reflexivity.
    - injection Hcopy as <- <- <-. repeat split; reflexivity. }
  destruct Hm as (Hsize & Hn & HAp & HAi & HAx).
  split; [done|]. split; [done|].
  unfold capacity, synchronised, reallocated. rewrite Hg. simpl.
  rewrite !drop_replicate, !Nat.sub_diag. simpl. rewrite !app_nil_r.
  repeat split. rewrite length_take_le; lia.
Qed.

(** The theorem at a growth from one nonzero to two, the snapshot matching
    the first row index. *)
Lemma X3_witness :
  ∃ JJ' tr,
    copySparseToKINSOL two_entry_matrix one_entry_backend 1 (Some [0; 1])
    = Ok (JJ', true) tr ∧ SM_INDEXVALS_S JJ' = [0; 1].
Proof.
  destruct (copySparseToKINSOL_returns two_entry_matrix one_entry_backend 1 (Some [0; 1]))
    as (b & tr & H).
  - unfold wf_matrix, INT_MAX. simpl. lia.
  - unfold wf_backend. simpl. lia.
  - simpl. lia.
  - destruct (X3_growth_reallocates_and_flags two_entry_matrix one_entry_backend
                (synchronised two_entry_matrix one_entry_backend 1) 1 (Some [0; 1]) b tr)
      as (-> & _ & _ & Hv & _).
    + unfold wf_matrix, INT_MAX. simpl. lia.
    + unfold wf_backend. simpl. lia.
    + simpl. lia.
    + exact H.
    + eexists _, tr. split; [exact H|exact Hv].
Defined.

(** X4.  Every finished call leaves a backend matrix whose arrays hold at
    least [size + 1] column pointers and at least the reported count of
    row indices and values. *)
Theorem X4_backend_invariant_preserved (smj : SparseMatrix) (JJ JJ' : SUNMatrix)
    (size : Z) (lastRowVals : option (list Z)) (b : bool) (tr : list event) :
  wf_matrix smj size → wf_backend JJ size →
  copySparseToKINSOL smj JJ size lastRowVals = Ok (JJ', b) tr →
  wf_backend JJ' size.
Proof.
  intros Hm Hb Hcopy.
  destruct (copySparseToKINSOL_result _ _ _ _ _ _ _ Hm Hb Hcopy) as [-> _].
  by apply synchronised_wf.
Qed.

(** The theorem at a shrink from three cells to one nonzero. *)
Lemma X4_witness :
  wf_backend (synchronised one_entry_matrix backend_1_of_3 1) 1.
Proof.
  apply (X4_backend_invariant_preserved one_entry_matrix backend_1_of_3
           (synchronised one_entry_matrix backend_1_of_3 1) 1 None true []).
  - unfold wf_matrix, INT_MAX. simpl. lia.
  - unfold wf_backend. simpl. lia.
  - vm_compute. reflexivity.
Defined.

(** X5.  On well-formed arguments the only undefined behaviour of a call
    is the comparison reading past the snapshot: it happens exactly when
    a snapshot is present, holds fewer than [newNnz] entries, and the
    comparison is made (the size change is significant, or there is
    none). *)
Theorem X5_copy_faults_exactly_when (smj : SparseMatrix) (JJ : SUNMatrix)
    (size : Z) (lastRowVals : option (list Z)) (f : fault) :
  wf_matrix smj size → wf_backend JJ size →
  copySparseToKINSOL smj JJ size lastRowVals = UB f ↔
  ∃ snapshot,
    lastRowVals = Some snapshot ∧
    Z.of_nat (length snapshot) < nbElem smj ∧
    (significant (SM_NNZ_S JJ) (nbElem smj) = true ∨ nbElem smj = SM_NNZ_S JJ) ∧
    f = OutOfBounds LastRowVals (nbElem smj) (length snapshot).
Proof.
  intros Hm Hb. rewrite copySparseToKINSOL_closed by done.
  destruct lastRowVals as [s|].
  2: { split; [done|]. by intros (? & ? & _). }
  destruct (significant _ _) eqn:Hsig; cbn [orb].
  - destruct (decide _) as [Hle|Hgt].
    + split; [done|]. intros (? & [= <-] & ? & _). lia.
    + split.
      * intros [= <-]. exists s. repeat split; auto. lia.
      * intros (? & [= <-] & _ & _ & ->). done.
  - destruct (decide (nbElem smj = SM_NNZ_S JJ)) as [Heq|Hne].
    + rewrite (bool_decide_eq_true_2 _ Heq).
      destruct (decide _) as [Hle|Hgt].
      * split; [done|]. intros (? & [= <-] & ? & _). lia.
      * split.
        -- intros [= <-]. exists s. repeat split; auto. lia.
        -- intros (? & [= <-] & _ & _ & ->). done.
    + rewrite (bool_decide_eq_false_2 _ Hne).
      split; [done|]. intros (? & _ & _ & [?|?] & _); done.
Qed.

(** The theorem at a growth from one nonzero to two with a one-entry
    snapshot. *)
Lemma X5_witness :
  copySparseToKINSOL two_entry_matrix one_entry_backend 1 (Some [0])
  = UB (OutOfBounds LastRowVals 2 1).
Proof.
  apply (X5_copy_faults_exactly_when two_entry_matrix one_entry_backend 1 (Some [0])).
  - unfold wf_matrix, INT_MAX. simpl. lia.
  - unfold wf_backend. simpl. lia.
  - exists [0]. split; [reflexivity|]. split; [simpl; lia|].
    split; [left; vm_compute; reflexivity|reflexivity].
Defined.

Lemma copy_index_pointers_rel (smj1 smj2 : SparseMatrix) (size : Z) (ptrs : list Z) :
  length (Ap_ smj1) = length (Ap_ smj2) →
  outcome_rel (λ p1 p2, length p1 = length p2)
    (copy_index_pointers smj1 size ptrs) (copy_index_pointers smj2 size ptrs).
Proof.
  intros HAp. unfold copy_index_pointers.
  apply for_loop_rel; [|done].
  intros j p1 p2 Hp.
  eapply bind_rel; [by apply (load_rel MatAp)|]. intros v1 v2 _.
  by apply store_rel.
Qed.

(** X6.  The verdict reads neither the column pointers nor the values:
    two calls whose local matrices have the same count and row indices,
    and column-pointer and value arrays of the same lengths, return the
    same verdict or stop on the same fault.  A nonzero that moves to
    another column of the same row is not seen. *)
Theorem X6_verdict_ignores_column_pointers (smj1 smj2 : SparseMatrix)
    (JJ : SUNMatrix) (size : Z) (lastRowVals : option (list Z)) :
  nbElem smj1 = nbElem smj2 → Ai_ smj1 = Ai_ smj2 →
  length (Ap_ smj1) = length (Ap_ smj2) →
  length (Ax_ smj1) = length (Ax_ smj2) →
  decision (copySparseToKINSOL smj1 JJ size lastRowVals)
  = decision (copySparseToKINSOL smj2 JJ size lastRowVals).
Proof.
  intros Hn HAi HAp HAx.
  cut (outcome_rel (λ r1 r2 : SUNMatrix * bool, r1.2 = r2.2)
         (copySparseToKINSOL smj1 JJ size lastRowVals)
         (copySparseToKINSOL smj2 JJ size lastRowVals)).
  { unfold decision.
    destruct (copySparseToKINSOL smj1 _ _ _) as [[J1 b1] tr1|f1],
             (copySparseToKINSOL smj2 _ _ _) as [[J2 b2] tr2|f2]; simpl; try done.
    - by intros [-> _].
    - by intros ->. }
  unfold copySparseToKINSOL. rewrite <- Hn.
  eapply bind_rel; [apply outcome_rel_refl|]. intros [J0 msc] ? <-.
  cbn [SM_NNZ_S SM_INDEXPTRS_S SM_INDEXVALS_S SM_DATA_S].
  eapply bind_rel; [by apply copy_index_pointers_rel|]. intros p1 p2 _.
  eapply bind_rel; [by apply copy_entries_rel|].
  intros [v1 d1] [v2 d2] [Hv _]. simpl in Hv. subst v2.
  cbn [SM_NNZ_S SM_INDEXPTRS_S SM_INDEXVALS_S SM_DATA_S].
  eapply bind_rel; [apply outcome_rel_refl|]. intros b ? <-.
  done.
Qed.

(** The theorem at two matrices of two columns with one nonzero in row 0,
    in the first column and in the second. *)
Lemma X6_witness :
  decision (copySparseToKINSOL nonzero_in_first_column backend_two_columns 2 (Some [0]))
  = decision (copySparseToKINSOL nonzero_in_second_column backend_two_columns 2 (Some [0]))
  ∧ decision (copySparseToKINSOL nonzero_in_second_column backend_two_columns 2 (Some [0]))
    = inr false.
Proof.
  split.
  - apply (X6_verdict_ignores_column_pointers
             nonzero_in_first_column nonzero_in_second_column backend_two_columns 2
             (Some [0])); reflexivity.
  - vm_compute. reflexivity.
Defined.

(** X7.  When the count does not grow and the first [newNnz] entries of
    the snapshot are the new row indices, the call returns
    [structureChanged = false], however much the count shrank. *)
Theorem X7_truncation_reports_no_change (smj : SparseMatrix) (JJ : SUNMatrix)
    (size : Z) (snapshot : list Z) :
  wf_matrix smj size → wf_backend JJ size →
  nbElem smj ≤ SM_NNZ_S JJ →
  nbElem smj ≤ Z.of_nat (length snapshot) →
  take (Z.to_nat (nbElem smj)) snapshot = take (Z.to_nat (nbElem smj)) (Ai_ smj) →
  verdict (copySparseToKINSOL smj JJ size (Some snapshot)) = Some false.
Proof.
  intros Hm Hb Hle Hs Hmatch.
  assert (grows smj JJ = false) as Hg by (apply Z.ltb_ge; lia).
  rewrite copySparseToKINSOL_closed by done.
  rewrite Hg, decide_True by done.
  rewrite (bool_decide_eq_false_2 (take _ snapshot ≠ _)) by (intros Hne; by apply Hne).
  by destruct (_ || _).
Qed.

(** The theorem at a shrink from 1005 nonzeros to 1 that keeps the first
    row index. *)
Lemma X7_witness :
  verdict (copySparseToKINSOL one_entry_matrix backend_1005 1 (Some (replicate 1005 0)))
  = Some false.
Proof.
  apply (X7_truncation_reports_no_change one_entry_matrix backend_1005 1 (replicate 1005 0)).
  - unfold wf_matrix, INT_MAX. simpl. lia.
  - unfold wf_backend. simpl. lia.
  - simpl. lia.
  - simpl. lia.
  - reflexivity.
Defined.

Lemma significant_by_count (currentNNZ newNNZ : Z) :
  0 ≤ currentNNZ ≤ INT_MAX → 0 ≤ newNNZ ≤ INT_MAX →
  MIN_NNZ_CHANGE ≤ Z.abs (newNNZ - currentNNZ) →
  significant currentNNZ newNNZ = true.
Proof.
  intros Hc Hn Hdiff. unfold significant.
  rewrite wrap_int_small by (unfold INT_MIN, INT_MAX in *; lia).
  apply orb_true_iff. right. by apply Z.leb_le.
Qed.

(** X8.  A change of the count by ten entries or more is always compared:
    with a snapshot that holds [newNnz] entries and differs from the new
    row indices in one of them, the call returns
    [structureChanged = true]. *)
Theorem X8_change_by_ten_is_compared (smj : SparseMatrix) (JJ : SUNMatrix)
    (size : Z) (snapshot : list Z) (i : nat) :
  wf_matrix smj size → wf_backend JJ size →
  0 ≤ SM_NNZ_S JJ ≤ INT_MAX →
  10 ≤ Z.abs (nbElem smj - SM_NNZ_S JJ) →
  nbElem smj ≤ Z.of_nat (length snapshot) →
  Z.of_nat i < nbElem smj →
  snapshot !! i ≠ Ai_ smj !! i →
  ∃ tr, copySparseToKINSOL smj JJ size (Some snapshot)
        = Ok (synchronised smj JJ size, true) tr ∧ Memcmp (nbElem smj) ∈ tr.
Proof.
  intros Hm Hb HJ Hdiff Hs Hi Hne.
  rewrite copySparseToKINSOL_closed by done.
  rewrite significant_by_count; [|done|by destruct Hm as (_ & ? & _)|done].
  cbn [orb]. rewrite decide_True by done.
  rewrite (bool_decide_eq_true_2 (take _ snapshot ≠ _)).
  - rewrite orb_true_r. eexists. split; [done|].
    apply elem_of_app. right. by apply list_elem_of_singleton.
  - intros Htake. apply Hne.
    rewrite <- (lookup_take_lt snapshot (Z.to_nat (nbElem smj)) i) by lia.
    rewrite <- (lookup_take_lt (Ai_ smj) (Z.to_nat (nbElem smj)) i) by lia.
    by rewrite Htake.
Qed.

(** The theorem at a shrink from 1005 nonzeros to 1 whose row index
    changed. *)
Lemma X8_witness :
  verdict (copySparseToKINSOL one_entry_matrix backend_1005 1 (Some [1])) = Some true.
Proof.
  destruct (X8_change_by_ten_is_compared one_entry_matrix backend_1005 1 [1] 0%nat)
    as (tr & H & _).
  - unfold wf_matrix, INT_MAX. simpl. lia.
  - unfold wf_backend. simpl. lia.
  - unfold INT_MAX. simpl. lia.
  - simpl. lia.
  - simpl. lia.
  - simpl. lia.
  - simpl. congruence.
  - rewrite H. reflexivity.
Defined.

(** X9.  A shrink that the thresholds tolerate is not compared at all:
    the call returns [structureChanged = false] and reads nothing of the
    snapshot, whatever it holds and however long it is. *)
Theorem X9_tolerated_shrink_is_not_compared (smj : SparseMatrix) (JJ : SUNMatrix)
    (size : Z) (snapshot : list Z) :
  wf_matrix smj size → wf_backend JJ size →
  nbElem smj < SM_NNZ_S JJ →
  significant (SM_NNZ_S JJ) (nbElem smj) = false →
  copySparseToKINSOL smj JJ size (Some snapshot)
  = Ok (synchronised smj JJ size, false) [].
Proof.
  intros Hm Hb Hlt Hsig.
  assert (grows smj JJ = false) as Hg by (apply Z.ltb_ge; lia).
  rewrite copySparseToKINSOL_closed by done.
  rewrite Hsig, bool_decide_eq_false_2 by lia.
  unfold reallocation. by rewrite Hg.
Qed.

(** The theorem at a shrink from 1005 to 1000 nonzeros with an empty
    snapshot. *)
Lemma X9_witness :
  verdict (copySparseToKINSOL matrix_1000 backend_1005 1 (Some [])) = Some false.
Proof.
  rewrite (X9_tolerated_shrink_is_not_compared matrix_1000 backend_1005 1 []).
  - reflexivity.
  - unfold wf_matrix, INT_MAX. simpl. lia.
  - unfold wf_backend. simpl. lia.
  - simpl. lia.
  - vm_compute. reflexivity.
Defined.

(* ================================================================== *)
(** ** Further properties of the coordinator *)

Lemma memcpy_fresh (src : list Z) (n : Z) :
  0 ≤ n ≤ Z.of_nat (length src) →
  memcpy (replicate (Z.to_nat n) 0) src n = Ok (take (Z.to_nat n) src) [Memcpy n].
Proof.
  intros Hn. unfold memcpy. rewrite length_replicate, !decide_True by lia. cbn.
  by rewrite drop_replicate, Nat.sub_diag, app_nil_r.
Qed.

(** The coordinator after a finished call of the synchroniser. *)
Lemma propagate_after_copy (smj : SparseMatrix) (JJ JJ' : SUNMatrix) (size : Z)
    (lastRowVals : option (list Z)) (log b : bool) (tr : list event) :
  wf_matrix smj size → wf_backend JJ size →
  copySparseToKINSOL smj JJ size lastRowVals = Ok (JJ', b) tr →
  propagateMatrixStructureChangeToKINSOL smj JJ size lastRowVals log =
  if b then
    Ok (JJ', Some (take (Z.to_nat (nbElem smj)) (Ai_ smj)))
       (tr ++ [KLUReInit (nbElem smj) 2]
           ++ (if lastRowVals is Some _ then [Free LastRowVals] else [])
           ++ [Malloc LastRowVals (nbElem smj); Memcpy (nbElem smj)]
           ++ (if log then [TraceDebug "MatrixStructureChange"] else []))
  else Ok (JJ', lastRowVals) tr.
Proof.
  intros Hm Hb Hcopy.
  destruct (copySparseToKINSOL_result _ _ _ _ _ _ _ Hm Hb Hcopy) as [-> _].
  pose proof (synchronised_wf smj JJ size Hm Hb) as (_ & Hv & _).
  pose proof Hm as (_ & Hn & _ & HAi & _).
  unfold propagateMatrixStructureChangeToKINSOL.
  rewrite Hcopy, bind_Ok. destruct b; [|cbn; by rewrite app_nil_r].
  change (SM_NNZ_S (synchronised smj JJ size)) with (nbElem smj) in *.
  unfold SUNLinSol_KLUReInit, free, malloc, emit.
  destruct lastRowVals, log; rewrite !bind_Ok; cbn [mret outcome_ret];
    rewrite !bind_Ok, memcpy_fresh, take_synchronised_vals by lia; reflexivity.
Qed.

Lemma propagate_stops_with_copy (smj : SparseMatrix) (JJ : SUNMatrix) (size : Z)
    (lastRowVals : option (list Z)) (log : bool) (f : fault) :
  copySparseToKINSOL smj JJ size lastRowVals = UB f →
  propagateMatrixStructureChangeToKINSOL smj JJ size lastRowVals log = UB f.
Proof.
  intros H. unfold propagateMatrixStructureChangeToKINSOL. by rewrite H.
Qed.

(** Installing a matrix on a backend that holds it changes nothing. *)
Lemma synchronised_idempotent (smj : SparseMatrix) (JJ : SUNMatrix) (size : Z) :
  wf_matrix smj size → wf_backend JJ size →
  synchronised smj (synchronised smj JJ size) size = synchronised smj JJ size.
Proof.
  intros Hm Hb.
  destruct (reallocated_wf smj JJ size Hm Hb) as (Hp & Hv & Hd).
  destruct Hm as (Hsize & Hn & HAp & HAi & HAx).
  assert (grows smj (synchronised smj JJ size) = false) as Hg.
  { apply Z.ltb_ge. simpl. lia. }
  unfold synchronised at 1. unfold reallocated. rewrite Hg.
  unfold synchronised. cbn [SM_NNZ_S SM_INDEXPTRS_S SM_INDEXVALS_S SM_DATA_S].
  f_equal; (rewrite drop_app_length'; [done|rewrite length_take_le; lia]).
Qed.

(** X10.  With no snapshot yet, the coordinator always finishes: it
    installs the matrix, re-initialises the factorisation once with the
    new count and mode 2, and leaves a snapshot of exactly [newNnz]
    entries, the row indices of the matrix. *)
Theorem X10_first_call_installs_snapshot (smj : SparseMatrix) (JJ : SUNMatrix)
    (size : Z) (log : bool) :
  wf_matrix smj size → wf_backend JJ size →
  propagateMatrixStructureChangeToKINSOL smj JJ size None log
  = Ok (synchronised smj JJ size, Some (take (Z.to_nat (nbElem smj)) (Ai_ smj)))
       (reallocation smj JJ size
          ++ [KLUReInit (nbElem smj) 2; Malloc LastRowVals (nbElem smj);
              Memcpy (nbElem smj)]
          ++ (if log then [TraceDebug "MatrixStructureChange"] else [])).
Proof.
  intros Hm Hb.
  rewrite (propagate_after_copy smj JJ (synchronised smj JJ size) size None log true
             (reallocation smj JJ size)); [done|done|done|].
  by rewrite copySparseToKINSOL_closed.
Qed.

(** The theorem at a matrix of two nonzeros on an empty backend. *)
Lemma X10_witness :
  value (propagateMatrixStructureChangeToKINSOL two_entry_matrix empty_backend 1 None false)
  = Some (synchronised two_entry_matrix empty_backend 1, Some [0; 1]).
Proof.
  rewrite (X10_first_call_installs_snapshot two_entry_matrix empty_backend 1 false).
  - reflexivity.
  - unfold wf_matrix, INT_MAX. simpl. lia.
  - unfold wf_backend. simpl. lia.
Defined.

(** X11.  After a call of the coordinator that re-initialised the
    factorisation, a second call with the same matrix only compares: no
    re-initialisation, no allocation, and the backend matrix and the
    snapshot are as they were. *)
Theorem X11_second_call_only_compares (smj : SparseMatrix) (JJ JJ1 : SUNMatrix)
    (size : Z) (lastRowVals snapshot1 : option (list Z)) (log : bool)
    (tr : list event) :
  wf_matrix smj size → wf_backend JJ size →
  propagateMatrixStructureChangeToKINSOL smj JJ size lastRowVals log
  = Ok (JJ1, snapshot1) tr →
  KLUReInit (nbElem smj) 2 ∈ tr →
  propagateMatrixStructureChangeToKINSOL smj JJ1 size snapshot1 log
  = Ok (JJ1, snapshot1) [Memcmp (nbElem smj)].
Proof.
  intros Hm Hb Hfirst Hre.
  destruct (copySparseToKINSOL smj JJ size lastRowVals) as [[JJ' b] tr0|f] eqn:Hcopy.
  2: { by rewrite (propagate_stops_with_copy _ _ _ _ _ _ Hcopy) in Hfirst. }
  destruct (copySparseToKINSOL_result _ _ _ _ _ _ _ Hm Hb Hcopy) as [-> Hno].
  rewrite (propagate_after_copy _ _ _ _ _ _ _ _ Hm Hb Hcopy) in Hfirst.
  destruct b.
  2: { injection Hfirst as <- <- <-. by apply Hno in Hre. }
  injection Hfirst as <- <- _.
  pose proof (synchronised_wf smj JJ size Hm Hb) as Hb1.
  pose proof Hm as (_ & Hn & _ & HAi & _).
  assert (copySparseToKINSOL smj (synchronised smj JJ size) size
            (Some (take (Z.to_nat (nbElem smj)) (Ai_ smj)))
          = Ok (synchronised smj JJ size, false) [Memcmp (nbElem smj)]) as Hsecond.
  { rewrite copySparseToKINSOL_closed, synchronised_idempotent by done.
    assert (nbElem smj = SM_NNZ_S (synchronised smj JJ size)) as Heq by done.
    rewrite (bool_decide_eq_true_2 _ Heq), orb_true_r.
    rewrite decide_True by (rewrite length_take_le; lia).
    unfold reallocation. rewrite (grows_same_count _ _ Heq). simpl.
    rewrite bool_decide_eq_false_2; [done|].
    intros Hne. apply Hne. by rewrite take_take, Nat.min_id. }
  by rewrite (propagate_after_copy _ _ _ _ _ _ _ _ Hm Hb1 Hsecond).
Qed.

(** The theorem at two calls with a matrix of two nonzeros, the first on
    an empty backend without snapshot. *)
Lemma X11_witness :
  propagateMatrixStructureChangeToKINSOL two_entry_matrix
    (synchronised two_entry_matrix empty_backend 1) 1 (Some [0; 1]) false
  = Ok (synchronised two_entry_matrix empty_backend 1, Some [0; 1]) [Memcmp 2].
Proof.
  apply (X11_second_call_only_compares two_entry_matrix empty_backend
           (synchronised two_entry_matrix empty_backend 1) 1 None (Some [0; 1]) false
           [Free IndexPtrs; Free IndexVals; Free Data; Malloc IndexPtrs 2;
            Malloc IndexVals 2; Malloc Data 2; KLUReInit 2 2; Malloc LastRowVals 2;
            Memcpy 2]).
  - unfold wf_matrix, INT_MAX. simpl. lia.
  - unfold wf_backend. simpl. lia.
  - vm_compute. reflexivity.
  - simpl. rewrite !elem_of_cons. auto 10.
Defined.

(** The verdict [false] is never returned on growth. *)
Lemma verdict_false_no_growth (smj : SparseMatrix) (JJ JJ' : SUNMatrix) (size : Z)
    (lastRowVals : option (list Z)) (tr : list event) :
  wf_matrix smj size → wf_backend JJ size →
  copySparseToKINSOL smj JJ size lastRowVals = Ok (JJ', false) tr →
  nbElem smj ≤ SM_NNZ_S JJ ∧ is_Some lastRowVals.
Proof.
  intros Hm Hb. rewrite copySparseToKINSOL_closed by done.
  unfold grows. destruct (SM_NNZ_S JJ <? nbElem smj) eqn:E.
  - destruct lastRowVals as [s|]; [|done].
    destruct (_ || _); [destruct (decide _)|]; done.
  - apply Z.ltb_ge in E. destruct lastRowVals as [s|]; [by eauto|done].
Qed.

(** X12.  The state the coordinator keeps is preserved by every call that
    finishes: the backend matrix stays well formed, there is a snapshot
    afterwards, and it holds at least as many entries as the backend then
    reports. *)
Theorem X12_coordinator_state_preserved (smj : SparseMatrix) (JJ JJ' : SUNMatrix)
    (size : Z) (lastRowVals lastRowVals' : option (list Z)) (log : bool)
    (tr : list event) :
  wf_matrix smj size → coordinator_state JJ size lastRowVals →
  propagateMatrixStructureChangeToKINSOL smj JJ size lastRowVals log
  = Ok (JJ', lastRowVals') tr →
  coordinator_state JJ' size lastRowVals' ∧ is_Some lastRowVals'.
Proof.
  intros Hm [Hb Hs] Hprop.
  destruct (copySparseToKINSOL smj JJ size lastRowVals) as [[J b] tr0|f] eqn:Hcopy.
  2: { by rewrite (propagate_stops_with_copy _ _ _ _ _ _ Hcopy) in Hprop. }
  rewrite (propagate_after_copy _ _ _ _ _ _ _ _ Hm Hb Hcopy) in Hprop.
  pose proof (copySparseToKINSOL_result _ _ _ _ _ _ _ Hm Hb Hcopy) as [-> _].
  pose proof (synchronised_wf smj JJ size Hm Hb) as Hb1.
  pose proof Hm as (_ & Hn & _ & HAi & _).
  destruct b.
  - injection Hprop as <- <- _. split; [split; [done|]|by eauto].
    simpl. rewrite length_take_le; lia.
  - injection Hprop as <- <- _.
    destruct (verdict_false_no_growth _ _ _ _ _ _ Hm Hb Hcopy) as [Hle [s ->]].
    split; [split; [done|]|by eauto]. simpl in *. lia.
Qed.

(** The theorem at the first call on an empty backend. *)
Lemma X12_witness :
  coordinator_state (synchronised two_entry_matrix empty_backend 1) 1 (Some [0; 1]).
Proof.
  apply (X12_coordinator_state_preserved two_entry_matrix empty_backend
           (synchronised two_entry_matrix empty_backend 1) 1 None (Some [0; 1]) false
           [Free IndexPtrs; Free IndexVals; Free Data; Malloc IndexPtrs 2;
            Malloc IndexVals 2; Malloc Data 2; KLUReInit 2 2; Malloc LastRowVals 2;
            Memcpy 2]).
  - unfold wf_matrix, INT_MAX. simpl. lia.
  - split; [unfold wf_backend; simpl; lia|exact I].
  - vm_compute. reflexivity.
Defined.

(** X13.  From a state the coordinator keeps, a call stops on undefined
    behaviour exactly when the new count exceeds the length of the
    snapshot and the size change is significant; the count has then
    grown, and the fault is the comparison reading past the snapshot. *)
Theorem X13_coordinator_faults_exactly_on_growth (smj : SparseMatrix)
    (JJ : SUNMatrix) (size : Z) (lastRowVals : option (list Z)) (log : bool)
    (f : fault) :
  wf_matrix smj size → coordinator_state JJ size lastRowVals →
  propagateMatrixStructureChangeToKINSOL smj JJ size lastRowVals log = UB f ↔
  ∃ snapshot,
    lastRowVals = Some snapshot ∧
    SM_NNZ_S JJ ≤ Z.of_nat (length snapshot) < nbElem smj ∧
    significant (SM_NNZ_S JJ) (nbElem smj) = true ∧
    f = OutOfBounds LastRowVals (nbElem smj) (length snapshot).
Proof.
  intros Hm [Hb Hs]. split.
  - intros Hprop.
    destruct (copySparseToKINSOL smj JJ size lastRowVals) as [[J b] tr0|f0] eqn:Hcopy.
    { rewrite (propagate_after_copy _ _ _ _ _ _ _ _ Hm Hb Hcopy) in Hprop.
      by destruct b. }
    rewrite (propagate_stops_with_copy _ _ _ _ _ _ Hcopy) in Hprop.
    injection Hprop as ->.
    rewrite copySparseToKINSOL_closed in Hcopy by done.
    destruct lastRowVals as [s|]; [|done]. simpl in Hs.
    destruct (significant _ _) eqn:Hsig; cbn [orb] in Hcopy.
    + destruct (decide _) as [Hle|Hgt]; [done|]. injection Hcopy as <-.
      exists s. repeat split; auto; lia.
    + destruct (decide (nbElem smj = SM_NNZ_S JJ)) as [Heq|Hne].
      * rewrite (bool_decide_eq_true_2 _ Heq), decide_True in Hcopy by lia. done.
      * by rewrite (bool_decide_eq_false_2 _ Hne) in Hcopy.
  - intros (s & -> & [Hlo Hhi] & Hsig & ->).
    apply propagate_stops_with_copy.
    rewrite copySparseToKINSOL_closed, Hsig by done. cbn [orb].
    by rewrite decide_False by lia.
Qed.

(** The theorem at a growth from one nonzero to two with the snapshot of
    one entry the first call left. *)
Lemma X13_witness :
  propagateMatrixStructureChangeToKINSOL two_entry_matrix
    (synchronised one_entry_matrix empty_backend 1) 1 (Some [0]) false
  = UB (OutOfBounds LastRowVals 2 1).
Proof.
  apply (X13_coordinator_faults_exactly_on_growth two_entry_matrix
           (synchronised one_entry_matrix empty_backend 1) 1 (Some [0]) false).
  - unfold wf_matrix, INT_MAX. simpl. lia.
  - split; [unfold wf_backend; simpl; lia|simpl; lia].
  - exists [0]. split; [reflexivity|]. split; [simpl; lia|].
    split; [vm_compute; reflexivity|reflexivity].
Defined.

(** X14.  A tolerated shrink whose row indices differ from the snapshot is
    not flagged by the call that installs it, which leaves the snapshot as
    it was; the next call with the same matrix compares, flags the change
    and re-initialises the factorisation. *)
Theorem X14_tolerated_change_flagged_at_next_call (smj : SparseMatrix)
    (JJ : SUNMatrix) (size : Z) (snapshot : list Z) (log : bool) (i : nat) :
  wf_matrix smj size → wf_backend JJ size →
  nbElem smj < SM_NNZ_S JJ →
  significant (SM_NNZ_S JJ) (nbElem smj) = false →
  nbElem smj ≤ Z.of_nat (length snapshot) →
  Z.of_nat i < nbElem smj →
  snapshot !! i ≠ Ai_ smj !! i →
  propagateMatrixStructureChangeToKINSOL smj JJ size (Some snapshot) log
  = Ok (synchronised smj JJ size, Some snapshot) [] ∧
  ∃ tr,
    propagateMatrixStructureChangeToKINSOL smj (synchronised smj JJ size) size
      (Some snapshot) log
    = Ok (synchronised smj JJ size, Some (take (Z.to_nat (nbElem smj)) (Ai_ smj))) tr ∧
    KLUReInit (nbElem smj) 2 ∈ tr.
Proof.
  intros Hm Hb Hlt Hsig Hs Hi Hne.
  pose proof (synchronised_wf smj JJ size Hm Hb) as Hb1.
  assert (grows smj JJ = false) as Hg by (apply Z.ltb_ge; lia).
  split.
  - rewrite (propagate_after_copy smj JJ (synchronised smj JJ size) size
               (Some snapshot) log false []); [done|done|done|].
    rewrite copySparseToKINSOL_closed, Hsig by done.
    rewrite bool_decide_eq_false_2 by lia.
    unfold reallocation. by rewrite Hg.
  - eexists.
    rewrite (propagate_after_copy smj (synchronised smj JJ size)
               (synchronised smj JJ size) size (Some snapshot) log true
               [Memcmp (nbElem smj)]); [split; [done|]|done|done|].
    + rewrite !elem_of_app, !elem_of_cons. auto.
    + rewrite copySparseToKINSOL_closed, synchronised_idempotent by done.
      assert (nbElem smj = SM_NNZ_S (synchronised smj JJ size)) as Heq by done.
      rewrite (bool_decide_eq_true_2 _ Heq), orb_true_r.
      rewrite decide_True by done.
      unfold reallocation. rewrite (grows_same_count _ _ Heq). simpl.
      rewrite bool_decide_eq_true_2; [done|].
      intros Htake. apply Hne.
      rewrite <- (lookup_take_lt snapshot (Z.to_nat (nbElem smj)) i) by lia.
      rewrite <- (lookup_take_lt (Ai_ smj) (Z.to_nat (nbElem smj)) i) by lia.
      by rewrite Htake.
Qed.

(** The theorem at a shrink from 1005 nonzeros in row 0 to 1000 nonzeros
    in row 1. *)
Lemma X14_witness :
  value (propagateMatrixStructureChangeToKINSOL matrix_1000_row_1 backend_1005 1
           (Some (replicate 1005 0)) false)
  = Some (synchronised matrix_1000_row_1 backend_1005 1, Some (replicate 1005 0)).
Proof.
  destruct (X14_tolerated_change_flagged_at_next_call matrix_1000_row_1 backend_1005 1
              (replicate 1005 0) false 0%nat) as [H _].
  - unfold wf_matrix, INT_MAX. simpl. lia.
  - unfold wf_backend. simpl. lia.
  - simpl. lia.
  - vm_compute. reflexivity.
  - simpl. lia.
  - simpl. lia.
  - simpl. congruence.
  - rewrite H. reflexivity.
Defined.

(* ================================================================== *)
(** ** Further properties of the profiler *)

Lemma count_calls_bounds (kind : call → bool) (calls : list call) :
  0 ≤ count_calls kind calls ≤ Z.of_nat (length calls).
Proof.
  induction calls as [|c rest IH]; simpl; [lia|]. destruct (kind c); lia.
Qed.

Lemma count_calls_positive (kind : call → bool) (calls : list call) :
  0 < count_calls kind calls ↔ ∃ c, c ∈ calls ∧ kind c = true.
Proof.
  induction calls as [|c rest IH]; simpl.
  - split; [lia|]. intros (c & Hc & _). by apply elem_of_nil in Hc.
  - pose proof (count_calls_bounds kind rest) as Hb. split.
    + destruct (kind c) eqn:E.
      * intros _. exists c. split; [apply elem_of_cons; auto|done].
      * intros Hpos. destruct IH as [IH _]. destruct IH as (c' & Hc' & Hk); [lia|].
        exists c'. split; [apply elem_of_cons; auto|done].
    + intros (c' & [-> | Hc']%elem_of_cons & Hk).
      * rewrite Hk. lia.
      * destruct IH as [_ IH]. destruct (kind c); [lia|].
        enough (0 < count_calls kind rest) by lia. apply IH. eauto.
Qed.

Lemma count_calls_le (kind1 kind2 : call → bool) (calls : list call) :
  (∀ c, kind1 c = true → kind2 c = true) →
  count_calls kind1 calls ≤ count_calls kind2 calls.
Proof.
  intros Himp. induction calls as [|c rest IH]; simpl; [lia|].
  destruct (kind1 c) eqn:E1.
  - rewrite (Himp c E1). lia.
  - destruct (kind2 c); lia.
Qed.

(** The counters after a list of calls, as long as none can overflow. *)
Lemma perform_all_counters (calls : list call) :
  ∀ p : SolverProfiler,
    0 ≤ symbolicFactorizations_ p ∧ 0 ≤ numericalOnlyFactorizations_ p ∧
    0 ≤ structureChangeDetections_ p ∧ 0 ≤ falsePositiveStructureChanges_ p ∧
    0 ≤ jacobianEvaluations_ p →
    symbolicFactorizations_ p + Z.of_nat (length calls) ≤ INT_MAX ∧
    numericalOnlyFactorizations_ p + Z.of_nat (length calls) ≤ INT_MAX ∧
    structureChangeDetections_ p + Z.of_nat (length calls) ≤ INT_MAX ∧
    falsePositiveStructureChanges_ p + Z.of_nat (length calls) ≤ INT_MAX ∧
    jacobianEvaluations_ p + Z.of_nat (length calls) ≤ INT_MAX →
    symbolicFactorizations_ (perform_all calls p)
    = symbolicFactorizations_ p + count_calls is_symbolic calls ∧
    numericalOnlyFactorizations_ (perform_all calls p)
    = numericalOnlyFactorizations_ p + count_calls is_numerical calls ∧
    structureChangeDetections_ (perform_all calls p)
    = structureChangeDetections_ p + count_calls is_structure_change calls ∧
    falsePositiveStructureChanges_ (perform_all calls p)
    = falsePositiveStructureChanges_ p + count_calls is_false_positive calls ∧
    jacobianEvaluations_ (perform_all calls p)
    = jacobianEvaluations_ p + count_calls is_jacobian calls.
Proof.
  induction calls as [|c rest IH]; intros p Hpos Hmax.
  - simpl. lia.
  - assert (∀ z, 0 ≤ z → z + Z.of_nat (length (c :: rest)) ≤ INT_MAX →
                 wrap_int (z + 1) = z + 1) as Hwrap.
    { intros z Hz Hle. apply wrap_int_small. unfold INT_MIN, INT_MAX in *.
      simpl length in Hle. lia. }
    change (perform_all (c :: rest) p) with (perform_all rest (perform p c)).
    destruct (IH (perform p c)) as (H1 & H2 & H3 & H4 & H5).
    + destruct c as [t|t|[] d r|t]; simpl; rewrite ?Hwrap by lia; lia.
    + simpl length in Hmax.
      destruct c as [t|t|[] d r|t]; simpl; rewrite ?Hwrap by (simpl length; lia); lia.
    + rewrite H1, H2, H3, H4, H5.
      destruct c as [t|t|[] d r|t]; simpl; rewrite ?Hwrap by lia; lia.
Qed.

(** X15.  On a new profiler, and for fewer than 2^31 calls, each of the
    five counters is the number of calls of its kind: symbolic and
    numerical factorisations, structure changes, structure changes logged
    as not necessary, Jacobian evaluations. *)
Theorem X15_counters_count_calls (calls : list call) :
  Z.of_nat (length calls) ≤ INT_MAX →
  symbolicFactorizations_ (perform_all calls new) = count_calls is_symbolic calls ∧
  numericalOnlyFactorizations_ (perform_all calls new) = count_calls is_numerical calls ∧
  structureChangeDetections_ (perform_all calls new)
  = count_calls is_structure_change calls ∧
  falsePositiveStructureChanges_ (perform_all calls new)
  = count_calls is_false_positive calls ∧
  jacobianEvaluations_ (perform_all calls new) = count_calls is_jacobian calls.
Proof.
  intros Hlen. apply (perform_all_counters calls new); simpl; lia.
Qed.

(** The theorem at two symbolic factorisations, a numerical one and a
    structure change logged as not necessary. *)
Lemma X15_witness :
  symbolicFactorizations_
    (perform_all [LogSymbolicFactorization 1; LogStructureChange false 5 0.5;
                  LogSymbolicFactorization 2; LogNumericalFactorization 3] new) = 2.
Proof.
  destruct (X15_counters_count_calls
              [LogSymbolicFactorization 1; LogStructureChange false 5 0.5;
               LogSymbolicFactorization 2; LogNumericalFactorization 3]) as [H _].
  - unfold INT_MAX. simpl. lia.
  - rewrite H. reflexivity.
Defined.

(** X16.  On a new profiler, and for fewer than 2^31 calls, the count of
    false positives is never negative and never exceeds the count of
    detections. *)
Theorem X16_false_positives_within_detections (calls : list call) :
  Z.of_nat (length calls) ≤ INT_MAX →
  0 ≤ falsePositiveStructureChanges_ (perform_all calls new)
    ≤ structureChangeDetections_ (perform_all calls new).
Proof.
  intros Hlen.
  destruct (perform_all_counters calls new) as (_ & _ & -> & -> & _); [simpl; lia..|].
  simpl. pose proof (count_calls_bounds is_false_positive calls).
  pose proof (count_calls_le is_false_positive is_structure_change calls) as Hle.
  split; [lia|]. apply Z.add_le_mono_l, Hle. by intros [| |[]|].
Qed.

(** The theorem at one necessary and one unnecessary structure change. *)
Lemma X16_witness :
  0 ≤ falsePositiveStructureChanges_
        (perform_all [LogStructureChange true 12 0.5; LogStructureChange false 5 0.5] new)
    ≤ structureChangeDetections_
        (perform_all [LogStructureChange true 12 0.5; LogStructureChange false 5 0.5] new).
Proof.
  apply (X16_false_positives_within_detections
           [LogStructureChange true 12 0.5; LogStructureChange false 5 0.5]).
  unfold INT_MAX. simpl. lia.
Defined.

(** X18.  On a new profiler, and for fewer than 2^31 calls, the ratio
    query depends only on how many symbolic and how many numerical
    factorisations were logged, not on their order or durations nor on
    other calls: it is 0 without numerical factorisations and the quotient
    of the two numbers otherwise. *)
Theorem X18_ratio_of_call_counts (calls : list call) :
  Z.of_nat (length calls) ≤ INT_MAX →
  getSymbolicToNumericalRatio (perform_all calls new)
  = Ok (if decide (count_calls is_numerical calls = 0) then 0%float
        else PrimFloat.div (double_of_int (count_calls is_symbolic calls))
                           (double_of_int (count_calls is_numerical calls))) [].
Proof.
  intros Hlen. rewrite getSymbolicToNumericalRatio_returns.
  destruct (perform_all_counters calls new) as (-> & -> & _); [simpl; lia..|].
  reflexivity.
Qed.

(** The theorem at three symbolic factorisations around two numerical
    ones. *)
Lemma X18_witness :
  getSymbolicToNumericalRatio
    (perform_all [LogSymbolicFactorization 1; LogNumericalFactorization 3;
                  LogSymbolicFactorization 2; LogJacobianEvaluation 1;
                  LogNumericalFactorization 3; LogSymbolicFactorization 2] new)
  = Ok 1.5%float [].
Proof.
  rewrite (X18_ratio_of_call_counts
             [LogSymbolicFactorization 1; LogNumericalFactorization 3;
              LogSymbolicFactorization 2; LogJacobianEvaluation 1;
              LogNumericalFactorization 3; LogSymbolicFactorization 2]).
  - vm_compute. reflexivity.
  - unfold INT_MAX. simpl. lia.
Defined.

(** X19.  Each of the five sums is accumulated in call order, in double
    arithmetic, from the terms of the calls of its kind; a structure
    change adds its difference of counts converted to double. *)
Theorem X19_sums_accumulate_in_call_order (calls : list call) (p : SolverProfiler) :
  totalSymbolicTime_ (perform_all calls p)
  = accumulate symbolic_time calls (totalSymbolicTime_ p) ∧
  totalNumericalTime_ (perform_all calls p)
  = accumulate numerical_time calls (totalNumericalTime_ p) ∧
  totalJacobianTime_ (perform_all calls p)
  = accumulate jacobian_time calls (totalJacobianTime_ p) ∧
  totalNnzDiff_ (perform_all calls p)
  = accumulate nnz_difference calls (totalNnzDiff_ p) ∧
  totalChangeRatio_ (perform_all calls p)
  = accumulate change_ratio calls (totalChangeRatio_ p).
Proof.
  revert p. induction calls as [|c rest IH]; intros p; [done|].
  change (perform_all (c :: rest) p) with (perform_all rest (perform p c)).
  destruct (IH (perform p c)) as (-> & -> & -> & -> & ->).
  by destruct c as [t|t|w d r|t].
Qed.

(* ================================================================== *)
(** ** The weighted norms *)

(** A loop over the indices of a list that folds [f] over its elements. *)
Lemma vector_loop_foldl {S A} (l : list A) (f : S → A → S)
    (body : nat → S → option S) :
  (∀ i s a, l !! i = Some a → body i s = Some (f s a)) →
  ∀ n i s, (i + n = length l)%nat →
    vector_loop n i body s = Some (foldl f s (drop i l)).
Proof.
  intros Hbody. induction n as [|n IH]; intros i s Hlen.
  - rewrite drop_ge by lia. done.
  - destruct (lookup_lt_is_Some_2 l i) as [a Ha]; [lia|].
    simpl. rewrite (Hbody i s a Ha). simpl.
    rewrite IH by lia. by rewrite (drop_S _ _ _ Ha).
Qed.

(** A loop stops where its body does. *)
Lemma vector_loop_None {S} (body : nat → S → option S) (k : nat) :
  ∀ n i s, (i ≤ k < i + n)%nat →
    (∀ s', body k s' = None) →
    vector_loop n i body s = None.
Proof.
  induction n as [|n IH]; intros i s Hk Hnone; [lia|].
  simpl. destruct (decide (i = k)) as [->|Hne].
  - by rewrite Hnone.
  - destruct (body i s); [|done]. simpl. apply IH; [lia|done].
Qed.

Lemma running_max_zip (vec weights : list float) :
  ∀ norm product : float,
    (foldl (λ '(norm, product) '(v, w),
              (if double_gt (PrimFloat.abs (v * w)) norm
               then PrimFloat.abs (v * w) else norm, PrimFloat.abs (v * w)))
           (norm, product) (zip vec weights)).1
    = running_max norm (products vec weights).
Proof.
  revert weights. induction vec as [|v vec IH]; intros [|w weights] norm product;
    try done.
  simpl. apply IH.
Qed.

Lemma infinity_norm_closed (vec weights : list float) :
  length vec = length weights →
  weightedInfinityNorm vec weights = Returns (running_max 0 (products vec weights)).
Proof.
  intros Hlen. unfold weightedInfinityNorm. rewrite decide_True by done.
  rewrite (vector_loop_foldl (zip vec weights)
             (λ '(norm, product) '(v, w),
                (if double_gt (PrimFloat.abs (v * w)) norm
                 then PrimFloat.abs (v * w) else norm, PrimFloat.abs (v * w)))).
  - rewrite drop_0, <- running_max_zip with (product := 0%float).
    by destruct (foldl _ _ _).
  - intros i [norm product] [v w] Hi.
    apply lookup_zip_with_Some in Hi as (v' & w' & [= <- <-] & Hv & Hw).
    by rewrite Hv, Hw.
  - rewrite length_zip_with, <- Hlen. lia.
Qed.

(* ------------------------------------------------------------------ *)
(** *** Comparisons of doubles *)

Lemma SFcompare_order_key (s1 s2 : SpecFloat.spec_float) :
  s1 ≠ SpecFloat.S754_nan → s2 ≠ SpecFloat.S754_nan →
  SpecFloat.SFcompare s1 s2 = Some (lex_compare (order_key s1) (order_key s2)).
Proof.
  intros H1 H2.
  destruct s1 as [[]|[]| |[] m1 e1], s2 as [[]|[]| |[] m2 e2]; try done.
  unfold lex_compare, order_key. cbn [SpecFloat.SFcompare fst snd].
  change (-1 ?= -1) with Eq. cbv iota.
  rewrite Z.compare_opp, (Z.compare_antisym e1 e2).
  by destruct (e1 ?= e2).
Qed.

Lemma spec_float_nan_or_not (s : SpecFloat.spec_float) :
  s = SpecFloat.S754_nan ∨ s ≠ SpecFloat.S754_nan.
Proof. destruct s; auto. Qed.

Lemma is_nan_spec (x : float) :
  PrimFloat.is_nan x = false ↔ FloatOps.Prim2SF x ≠ SpecFloat.S754_nan.
Proof.
  unfold PrimFloat.is_nan. rewrite FloatAxioms.eqb_spec. unfold SpecFloat.SFeqb.
  destruct (FloatOps.Prim2SF x) as [[]|[]| |[] m e] eqn:E; cbn; try (split; congruence).
  all: rewrite Z.compare_refl, Pos.compare_cont_refl; cbn; split; congruence.
Qed.

Lemma ltb_spec_key (x y : float) :
  PrimFloat.ltb x y = true ↔
  PrimFloat.is_nan x = false ∧ PrimFloat.is_nan y = false ∧
  lex_compare (order_key (FloatOps.Prim2SF x)) (order_key (FloatOps.Prim2SF y)) = Lt.
Proof.
  rewrite !is_nan_spec, FloatAxioms.ltb_spec. unfold SpecFloat.SFltb.
  destruct (spec_float_nan_or_not (FloatOps.Prim2SF x)) as [Hx|Hx].
  { rewrite Hx. cbn. split; [done|]. by intros [? _]. }
  destruct (spec_float_nan_or_not (FloatOps.Prim2SF y)) as [Hy|Hy].
  { rewrite Hy. destruct (FloatOps.Prim2SF x); cbn; (split; [done|]); by intros (_ & ? & _). }
  rewrite SFcompare_order_key by done.
  destruct (lex_compare _ _); split; try done; by intros (_ & _ & ?).
Qed.

Lemma leb_spec_key (x y : float) :
  PrimFloat.leb x y = true ↔
  PrimFloat.is_nan x = false ∧ PrimFloat.is_nan y = false ∧
  lex_compare (order_key (FloatOps.Prim2SF x)) (order_key (FloatOps.Prim2SF y)) ≠ Gt.
Proof.
  rewrite !is_nan_spec, FloatAxioms.leb_spec. unfold SpecFloat.SFleb.
  destruct (spec_float_nan_or_not (FloatOps.Prim2SF x)) as [Hx|Hx].
  { rewrite Hx. cbn. split; [done|]. by intros [? _]. }
  destruct (spec_float_nan_or_not (FloatOps.Prim2SF y)) as [Hy|Hy].
  { rewrite Hy. destruct (FloatOps.Prim2SF x); cbn; (split; [done|]); by intros (_ & ? & _). }
  rewrite SFcompare_order_key by done.
  destruct (lex_compare _ _); split; try done; by intros (_ & _ & ?).
Qed.

Lemma lex_compare_le (a b : Z * Z * Z) :
  lex_compare a b ≠ Gt ↔
  a.1.1 < b.1.1 ∨ (a.1.1 = b.1.1 ∧ (a.1.2 < b.1.2 ∨ (a.1.2 = b.1.2 ∧ a.2 ≤ b.2))).
Proof.
  unfold lex_compare.
  destruct (Z.compare_spec a.1.1 b.1.1), (Z.compare_spec a.1.2 b.1.2),
           (Z.compare_spec a.2 b.2); split; try done; try lia; intros _; lia.
Qed.

Lemma lex_compare_lt (a b : Z * Z * Z) :
  lex_compare a b = Lt ↔
  a.1.1 < b.1.1 ∨ (a.1.1 = b.1.1 ∧ (a.1.2 < b.1.2 ∨ (a.1.2 = b.1.2 ∧ a.2 < b.2))).
Proof.
  unfold lex_compare.
  destruct (Z.compare_spec a.1.1 b.1.1), (Z.compare_spec a.1.2 b.1.2),
           (Z.compare_spec a.2 b.2); split; try done; try lia; intros _; lia.
Qed.

Lemma leb_refl (x : float) : PrimFloat.is_nan x = false → PrimFloat.leb x x = true.
Proof.
  intros Hx. apply leb_spec_key. repeat split; try done.
  apply lex_compare_le. lia.
Qed.

Lemma leb_trans (x y z : float) :
  PrimFloat.leb x y = true → PrimFloat.leb y z = true → PrimFloat.leb x z = true.
Proof.
  rewrite !leb_spec_key, !lex_compare_le.
  intros (Hx & Hy & Hxy) (_ & Hz & Hyz). repeat split; try done. lia.
Qed.

Lemma ltb_leb (x y : float) : PrimFloat.ltb x y = true → PrimFloat.leb x y = true.
Proof.
  rewrite ltb_spec_key, leb_spec_key, lex_compare_lt, lex_compare_le.
  intros (Hx & Hy & Hxy). repeat split; try done. lia.
Qed.

Lemma not_ltb_leb (x y : float) :
  PrimFloat.is_nan x = false → PrimFloat.is_nan y = false →
  PrimFloat.ltb x y = false → PrimFloat.leb y x = true.
Proof.
  intros Hx Hy Hlt. apply leb_spec_key. repeat split; try done.
  apply lex_compare_le.
  assert (¬ lex_compare (order_key (FloatOps.Prim2SF x)) (order_key (FloatOps.Prim2SF y)) = Lt)
    as Hn.
  { intros Hc. assert (PrimFloat.ltb x y = true) by (by apply ltb_spec_key). congruence. }
  rewrite lex_compare_lt in Hn. lia.
Qed.

Lemma is_nan_abs (x : float) : PrimFloat.is_nan (PrimFloat.abs x) = PrimFloat.is_nan x.
Proof.
  destruct (PrimFloat.is_nan x) eqn:Hx.
  - apply not_false_iff_true. apply not_false_iff_true in Hx.
    rewrite is_nan_spec in *. rewrite FloatAxioms.abs_spec.
    intros Habs. apply Hx. intros Hnan. apply Habs. by rewrite Hnan.
  - rewrite is_nan_spec in *. rewrite FloatAxioms.abs_spec.
    by destruct (FloatOps.Prim2SF x).
Qed.

Lemma abs_nonnegative (x : float) :
  PrimFloat.is_nan x = false → PrimFloat.leb 0 (PrimFloat.abs x) = true.
Proof.
  intros Hx. apply leb_spec_key. split; [done|]. split; [by rewrite is_nan_abs|].
  apply is_nan_spec in Hx. rewrite FloatAxioms.abs_spec.
  change (FloatOps.Prim2SF 0) with (SpecFloat.S754_zero false).
  by destruct (FloatOps.Prim2SF x) as [[]|[]| |[] m e].
Qed.

(* ------------------------------------------------------------------ *)
(** *** The infinity norm *)

Lemma running_max_not_nan (ps : list float) :
  ∀ norm, PrimFloat.is_nan norm = false →
          PrimFloat.is_nan (running_max norm ps) = false.
Proof.
  induction ps as [|p ps IH]; intros norm Hn; [done|].
  simpl. apply IH. unfold double_gt.
  destruct (PrimFloat.ltb norm (PrimFloat.abs p)) eqn:E; [|done].
  by apply ltb_spec_key in E as (_ & ? & _).
Qed.

Lemma running_max_ge_start (ps : list float) :
  ∀ norm, PrimFloat.is_nan norm = false →
          PrimFloat.leb norm (running_max norm ps) = true.
Proof.
  induction ps as [|p ps IH]; intros norm Hn; [by apply leb_refl|].
  simpl. unfold double_gt.
  destruct (PrimFloat.ltb norm (PrimFloat.abs p)) eqn:E; [|by apply IH].
  apply leb_trans with (PrimFloat.abs p); [by apply ltb_leb|].
  apply IH. by apply ltb_spec_key in E as (_ & ? & _).
Qed.

Lemma running_max_ge_element (ps : list float) (p : float) :
  p ∈ ps → PrimFloat.is_nan p = false →
  ∀ norm, PrimFloat.is_nan norm = false →
          PrimFloat.leb (PrimFloat.abs p) (running_max norm ps) = true.
Proof.
  intros Hin Hp. induction ps as [|q ps IH]; intros norm Hn.
  { by apply elem_of_nil in Hin. }
  simpl. unfold double_gt.
  assert (PrimFloat.is_nan
            (if PrimFloat.ltb norm (PrimFloat.abs q) then PrimFloat.abs q else norm)
          = false) as Hnext.
  { destruct (PrimFloat.ltb norm (PrimFloat.abs q)) eqn:E; [|done].
    by apply ltb_spec_key in E as (_ & ? & _). }
  apply elem_of_cons in Hin as [<- | Hin]; [|by apply IH].
  eapply leb_trans; [|by apply running_max_ge_start].
  destruct (PrimFloat.ltb norm (PrimFloat.abs p)) eqn:E.
  - apply leb_refl. by rewrite is_nan_abs.
  - apply not_ltb_leb; [done|by rewrite is_nan_abs|done].
Qed.

Lemma running_max_attained (ps : list float) :
  ∀ norm, running_max norm ps = norm ∨
          ∃ p, p ∈ ps ∧ running_max norm ps = PrimFloat.abs p.
Proof.
  induction ps as [|p ps IH]; intros norm; [by left|].
  simpl.
  destruct (IH (if double_gt (PrimFloat.abs p) norm then PrimFloat.abs p else norm))
    as [Heq | (q & Hq & Heq)].
  - rewrite Heq. destruct (double_gt _ _); [|by left].
    right. exists p. split; [apply elem_of_cons; auto|done].
  - right. exists q. split; [apply elem_of_cons; auto|done].
Qed.

Lemma elem_of_products (vec weights : list float) (p : float) :
  p ∈ products vec weights ↔
  ∃ i v w, vec !! i = Some v ∧ weights !! i = Some w ∧ p = (v * w)%float.
Proof.
  unfold products. rewrite list_elem_of_lookup. split.
  - intros (i & Hi). apply lookup_zip_with_Some in Hi as (v & w & -> & Hv & Hw).
    by exists i, v, w.
  - intros (i & v & w & Hv & Hw & ->). exists i.
    apply lookup_zip_with_Some. by exists v, w.
Qed.

(** X20.  The weighted infinity norm of vectors of one length is the
    largest [|v_i * w_i|]: it is 0 or one of them, and it is at least each
    of them that is not NaN. *)
Theorem X20_infinity_norm_is_maximum (vec weights : list float) :
  length vec = length weights →
  ∃ r, weightedInfinityNorm vec weights = Returns r ∧
       (r = 0%float ∨
        ∃ i v w, vec !! i = Some v ∧ weights !! i = Some w ∧
                 r = PrimFloat.abs (v * w)) ∧
       ∀ i v w, vec !! i = Some v → weights !! i = Some w →
                PrimFloat.is_nan (v * w) = false →
                PrimFloat.leb (PrimFloat.abs (v * w)) r = true.
Proof.
  intros Hlen. exists (running_max 0 (products vec weights)).
  split; [by apply infinity_norm_closed|]. split.
  - destruct (running_max_attained (products vec weights) 0) as [->|(p & Hp & ->)];
      [by left|right].
    apply elem_of_products in Hp as (i & v & w & Hv & Hw & ->). by exists i, v, w.
  - intros i v w Hv Hw Hnan. apply running_max_ge_element; [|done..].
    apply elem_of_products. by exists i, v, w.
Qed.

(** The theorem at the vectors [3, -4] and [1, 2]. *)
Lemma X20_witness :
  weightedInfinityNorm [3%float; (-4)%float] [1%float; 2%float] = Returns 8%float ∧
  PrimFloat.leb (PrimFloat.abs (3 * 1)) 8 = true.
Proof.
  destruct (X20_infinity_norm_is_maximum [3%float; (-4)%float] [1%float; 2%float])
    as (r & Hr & _ & Hmax); [reflexivity|].
  split.
  - vm_compute. reflexivity.
  - assert (r = 8%float) as <-.
    { vm_compute in Hr. injection Hr as <-. reflexivity. }
    apply (Hmax 0%nat 3%float 1%float); reflexivity.
Defined.

(** X21.  The weighted infinity norm never returns NaN nor a negative
    number: products that are NaN are passed over. *)
Theorem X21_infinity_norm_never_nan (vec weights : list float) (r : float) :
  weightedInfinityNorm vec weights = Returns r →
  PrimFloat.is_nan r = false ∧ PrimFloat.leb 0 r = true.
Proof.
  intros Hr.
  destruct (decide (length vec = length weights)) as [Hlen|Hlen].
  2: { unfold weightedInfinityNorm in Hr. by rewrite decide_False in Hr. }
  rewrite infinity_norm_closed in Hr by done. injection Hr as <-.
  split; [by apply running_max_not_nan|by apply running_max_ge_start].
Qed.

(** The theorem at a vector whose first entry is NaN. *)
Lemma X21_witness :
  weightedInfinityNorm [PrimFloat.nan; 3%float] [1%float; 1%float] = Returns 3%float ∧
  PrimFloat.is_nan 3 = false ∧ PrimFloat.leb 0 3 = true.
Proof.
  assert (weightedInfinityNorm [PrimFloat.nan; 3%float] [1%float; 1%float]
          = Returns 3%float) as H by (vm_compute; reflexivity).
  split; [exact H|].
  exact (X21_infinity_norm_never_nan [PrimFloat.nan; 3%float] [1%float; 1%float]
           3%float H).
Defined.

(* ------------------------------------------------------------------ *)
(** *** The L2 norm and the overloads with indices *)

Lemma running_sum_zip (vec weights : list float) :
  ∀ sum : float,
    foldl (λ sum '(v, w), (sum + (v * w) * (v * w))%float) sum (zip vec weights)
    = running_sum_of_squares sum (products vec weights).
Proof.
  revert weights. induction vec as [|v vec IH]; intros [|w weights] sum; try done.
  simpl. apply IH.
Qed.

Lemma L2_norm_closed (vec weights : list float) :
  length vec = length weights →
  weightedL2Norm vec weights
  = Returns (PrimFloat.sqrt (running_sum_of_squares 0 (products vec weights))).
Proof.
  intros Hlen. unfold weightedL2Norm. rewrite decide_True by done.
  rewrite (vector_loop_foldl (zip vec weights)
             (λ sum '(v, w), (sum + (v * w) * (v * w))%float)).
  - by rewrite drop_0, running_sum_zip.
  - intros i sum [v w] Hi.
    apply lookup_zip_with_Some in Hi as (v' & w' & [= <- <-] & Hv & Hw).
    by rewrite Hv, Hw.
  - rewrite length_zip_with, <- Hlen. lia.
Qed.

(** What [gather] returns, cell by cell. *)
Lemma gather_Some (vec : list float) (vec_index : list Z) (g : list float) :
  gather vec vec_index = Some g →
  length g = length vec_index ∧
  ∀ i v, g !! i = Some v →
         ∃ k, vec_index !! i = Some k ∧ vector_at vec k = Some v.
Proof.
  unfold gather. intros Hg%mapM_Some. split.
  - symmetry. by eapply Forall2_length.
  - intros i v Hv.
    destruct (Forall2_lookup_r _ _ _ _ _ Hg Hv) as (k & Hk & Hat). eauto.
Qed.

(** Where [gather] fails. *)
Lemma gather_None (vec : list float) (vec_index : list Z) :
  gather vec vec_index = None →
  ∃ i k, vec_index !! i = Some k ∧ vector_at vec k = None.
Proof.
  unfold gather. intros Hg.
  assert (¬ Forall (λ k, is_Some (vector_at vec k)) vec_index) as Hn.
  { intros HF. apply mapM_is_Some in HF. rewrite Hg in HF. by destruct HF. }
  apply not_Forall_Exists in Hn; [|apply _].
  apply Exists_exists in Hn as (k & Hk & Hat).
  apply list_elem_of_lookup in Hk as [i Hi]. exists i, k. split; [done|].
  by apply eq_None_not_Some.
Qed.

(** X22.  The infinity norm over indices is the infinity norm of the
    gathered vector: with as many indices as weights, it is the full norm
    of the elements of [vec] at these indices when all of them are within
    [vec], and an access outside [vec] otherwise. *)
Theorem X22_infinity_norm_over_indices (vec : list float) (vec_index : list Z)
    (weights : list float) :
  length vec_index = length weights →
  weightedInfinityNorm_index vec vec_index weights
  = match gather vec vec_index with
    | Some g => weightedInfinityNorm g weights
    | None => Undefined
    end.
Proof.
  intros Hlen. unfold weightedInfinityNorm_index. rewrite decide_True by done.
  destruct (gather vec vec_index) as [g|] eqn:Hg.
  - destruct (gather_Some _ _ _ Hg) as [Hlg Hcells].
    rewrite infinity_norm_closed by lia.
    rewrite (vector_loop_foldl (zip g weights)
               (λ '(norm, product) '(v, w),
                  (if double_gt (PrimFloat.abs (v * w)) norm
                   then PrimFloat.abs (v * w) else norm, PrimFloat.abs (v * w)))).
    + rewrite drop_0, <- running_max_zip with (product := 0%float).
      by destruct (foldl _ _ _).
    + intros i [norm product] [v w] Hi.
      apply lookup_zip_with_Some in Hi as (v' & w' & [= <- <-] & Hv & Hw).
      destruct (Hcells i v Hv) as (k & Hk & Hat).
      rewrite Hk. simpl. rewrite Hat. simpl. by rewrite Hw.
    + rewrite length_zip_with. lia.
  - destruct (gather_None _ _ Hg) as (i & k & Hk & Hat).
    rewrite (vector_loop_None _ i); [done| |].
    + apply lookup_lt_Some in Hk. lia.
    + intros [norm product]. rewrite Hk. simpl. by rewrite Hat.
Qed.

(** The theorem at the indices 2 and 0 of a vector of three elements. *)
Lemma X22_witness :
  weightedInfinityNorm_index [3%float; 100%float; (-4)%float] [2; 0]
    [1%float; 2%float]
  = weightedInfinityNorm [(-4)%float; 3%float] [1%float; 2%float].
Proof.
  rewrite (X22_infinity_norm_over_indices [3%float; 100%float; (-4)%float] [2; 0]
             [1%float; 2%float]); reflexivity.
Defined.

(** X23.  The L2 norm over indices is the L2 norm of the gathered vector,
    in the same way; the full L2 norm of vectors of one length is the
    square root of the sum, in order, of the squares of the products. *)
Theorem X23_L2_norm_over_indices (vec : list float) (vec_index : list Z)
    (weights : list float) :
  length vec_index = length weights →
  weightedL2Norm_index vec vec_index weights
  = match gather vec vec_index with
    | Some g => Returns (PrimFloat.sqrt (running_sum_of_squares 0 (products g weights)))
    | None => Undefined
    end
  ∧ ∀ g, gather vec vec_index = Some g →
         weightedL2Norm g weights = weightedL2Norm_index vec vec_index weights.
Proof.
  intros Hlen.
  assert (weightedL2Norm_index vec vec_index weights
          = match gather vec vec_index with
            | Some g => Returns (PrimFloat.sqrt
                                   (running_sum_of_squares 0 (products g weights)))
            | None => Undefined
            end) as Hclosed.
  { unfold weightedL2Norm_index. rewrite decide_True by done.
    destruct (gather vec vec_index) as [g|] eqn:Hg.
    - destruct (gather_Some _ _ _ Hg) as [Hlg Hcells].
      rewrite (vector_loop_foldl (zip g weights)
                 (λ sum '(v, w), (sum + (v * w) * (v * w))%float)).
      + by rewrite drop_0, running_sum_zip.
      + intros i sum [v w] Hi.
        apply lookup_zip_with_Some in Hi as (v' & w' & [= <- <-] & Hv & Hw).
        destruct (Hcells i v Hv) as (k & Hk & Hat).
        rewrite Hk. simpl. rewrite Hat. simpl. by rewrite Hw.
      + rewrite length_zip_with. lia.
    - destruct (gather_None _ _ Hg) as (i & k & Hk & Hat).
      rewrite (vector_loop_None _ i); [done| |].
      + apply lookup_lt_Some in Hk. lia.
      + intros sum. rewrite Hk. simpl. by rewrite Hat. }
  split; [done|]. intros g Hg. rewrite Hclosed, Hg.
  apply L2_norm_closed. destruct (gather_Some _ _ _ Hg) as [Hlg _]. lia.
Qed.

(** The theorem at the indices 2 and 0 of a vector of three elements. *)
Lemma X23_witness :
  weightedL2Norm_index [3%float; 100%float; 4%float] [2; 0] [1%float; 1%float]
  = Returns 5%float ∧
  weightedL2Norm [4%float; 3%float] [1%float; 1%float] = Returns 5%float.
Proof.
  destruct (X23_L2_norm_over_indices [3%float; 100%float; 4%float] [2; 0]
              [1%float; 1%float]) as [H1 H2]; [reflexivity|].
  split.
  - rewrite H1. vm_compute. reflexivity.
  - rewrite (H2 [4%float; 3%float]); [|reflexivity]. rewrite H1.
    vm_compute. reflexivity.
Defined.

(* ================================================================== *)
(** ** The report of the largest errors *)

(** X24.  Whatever the sort, as long as it permutes the vector:
    [printLargestErrors] leaves the vector sorted in full and logs one
    record per entry for the first [min(nbErr, n)] entries of the sorted
    vector, in order; a negative [nbErr] logs every entry. *)
Theorem X24_largest_errors_logged (sort_mapcompabs : list (float * Z) → list (float * Z))
    (getFInfos : Z → string * Z * string) (fErr : list (float * Z)) (nbErr : Z) :
  (∀ l, sort_mapcompabs l ≡ₚ l) →
  INT_MIN ≤ nbErr ≤ INT_MAX →
  Z.of_nat (length fErr) < 2 ^ 63 →
  printLargestErrors sort_mapcompabs getFInfos fErr nbErr
  = (sort_mapcompabs fErr,
     Some (error_record getFInfos
             <$> take (if decide (nbErr < 0) then length fErr else Z.to_nat nbErr)
                      (sort_mapcompabs fErr))).
Proof.
  intros Hperm Hrange Hlen. unfold printLargestErrors. f_equal.
  assert (length (sort_mapcompabs fErr) = length fErr) as Hl
    by (by apply Permutation_length).
  set (sorted := sort_mapcompabs fErr) in *.
  set (k := if decide (nbErr < 0) then length fErr else Z.to_nat nbErr).
  assert (Z.to_nat (if Z.of_nat (length sorted) <? to_size_t nbErr
                    then Z.of_nat (length sorted) else to_size_t nbErr)
          = length (take k sorted)) as ->.
  { rewrite length_take, Hl. unfold k, to_size_t, INT_MIN, INT_MAX in *.
    destruct (decide (nbErr < 0)).
    - replace (nbErr mod 2 ^ 64) with (nbErr + 2 ^ 64)
        by (apply Z.mod_unique with (-1); lia).
      destruct (Z.ltb_spec (Z.of_nat (length fErr)) (nbErr + 2 ^ 64)); lia.
    - rewrite Z.mod_small by lia.
      destruct (Z.ltb_spec (Z.of_nat (length fErr)) nbErr); lia. }
  rewrite (vector_loop_foldl (take k sorted)
             (λ trace e, trace ++ [error_record getFInfos e])).
  - assert (∀ (l : list (float * Z)) (trace : list KinErrorValue),
              foldl (λ trace e, trace ++ [error_record getFInfos e]) trace l
              = trace ++ (error_record getFInfos <$> l)) as Hfold.
    { induction l as [|e l IH]; intros trace; simpl; [by rewrite app_nil_r|].
      by rewrite IH, <- app_assoc. }
    by rewrite drop_0, Hfold.
  - intros i trace e [He _]%lookup_take_Some. rewrite He. simpl.
    unfold error_record. by destruct (getFInfos (wrap_int e.2)) as [[name idx] eq].
  - lia.
Qed.

(** The theorem at three errors and a negative count. *)
Lemma X24_witness :
  printLargestErrors sort_by_decreasing_magnitude no_info
    [(1%float, 7); ((-3)%float, 8); (2%float, 9)] (-1)
  = ([((-3)%float, 8); (2%float, 9); (1%float, 7)],
     Some (error_record no_info <$> [((-3)%float, 8); (2%float, 9); (1%float, 7)])).
Proof.
  rewrite (X24_largest_errors_logged sort_by_decreasing_magnitude no_info
             [(1%float, 7); ((-3)%float, 8); (2%float, 9)] (-1)).
  - vm_compute. reflexivity.
  - intros l. apply merge_sort_Permutation.
  - unfold INT_MIN, INT_MAX. lia.
  - simpl. lia.
Defined.

(* ================================================================== *)
(** ** The report after a false positive without symbolic factorisation *)

(** A sum that no call of the list adds to stays where it started. *)
Lemma accumulate_no_term (term : call → option float) (calls : list call) :
  (∀ c, c ∈ calls → term c = None) →
  ∀ start, accumulate term calls start = start.
Proof.
  unfold accumulate. induction calls as [|c rest IH]; intros Hnone start; [done|].
  simpl. rewrite (Hnone c) by (apply elem_of_cons; auto).
  apply IH. intros c' Hc'. apply Hnone, elem_of_cons. auto.
Qed.

Lemma total_symbolic_time_accumulates (calls : list call) :
  ∀ p, totalSymbolicTime_ (perform_all calls p)
       = accumulate symbolic_time calls (totalSymbolicTime_ p).
Proof.
  induction calls as [|c rest IH]; intros p; [done|].
  change (perform_all (c :: rest) p) with (perform_all rest (perform p c)).
  rewrite IH. by destruct c as [t|t|w d r|t].
Qed.

Lemma is_nan_true_spec (x : float) :
  PrimFloat.is_nan x = true ↔ FloatOps.Prim2SF x = SpecFloat.S754_nan.
Proof.
  destruct (spec_float_nan_or_not (FloatOps.Prim2SF x)) as [Hx|Hx].
  - split; [done|]. intros _. apply not_false_iff_true. by intros Hf%is_nan_spec.
  - split; [|done]. intros Hnan. apply is_nan_spec in Hx. congruence.
Qed.

(** A product with NaN is NaN. *)
Lemma is_nan_mul_r (x y : float) :
  PrimFloat.is_nan y = true → PrimFloat.is_nan (x * y) = true.
Proof.
  rewrite !is_nan_true_spec, FloatAxioms.mul_spec. intros ->.
  unfold FloatAxioms.SF64mul. by destruct (FloatOps.Prim2SF x).
Qed.

(** X17.  On a new profiler, and for fewer than 2^31 calls,
    [printStatistics] reaches the division of line 187 with a count of
    zero as divisor exactly when some structure change was logged as not
    necessary and no symbolic factorisation was logged.  In every other
    case each division has a nonzero divisor and the report is produced,
    as one informational trace.  In the first case the total symbolic time
    is 0, so in IEEE-754 arithmetic the quotient is NaN and so is the
    estimate of lines 186-187. *)
Theorem X17_division_by_zero_exactly_when (calls : list call) :
  Z.of_nat (length calls) ≤ INT_MAX →
  (printStatistics (perform_all calls new) = UB DivisionByZero ↔
   (∃ c, c ∈ calls ∧ is_false_positive c = true) ∧
   ¬ (∃ c, c ∈ calls ∧ is_symbolic c = true)) ∧
  (¬ ((∃ c, c ∈ calls ∧ is_false_positive c = true) ∧
      ¬ (∃ c, c ∈ calls ∧ is_symbolic c = true)) →
   ∃ report, printStatistics (perform_all calls new) = Ok tt [TraceInfo report]) ∧
  ((∃ c, c ∈ calls ∧ is_false_positive c = true) ∧
   ¬ (∃ c, c ∈ calls ∧ is_symbolic c = true) →
   symbolicFactorizations_ (perform_all calls new) = 0 ∧
   totalSymbolicTime_ (perform_all calls new) = 0%float ∧
   PrimFloat.is_nan (totalSymbolicTime_ (perform_all calls new)
                     / double_of_int (symbolicFactorizations_ (perform_all calls new)))
   = true ∧
   PrimFloat.is_nan (savedTime_ieee (perform_all calls new)) = true).
Proof.
  intros Hlen.
  destruct (perform_all_counters calls new) as (Hsym & _ & _ & Hfp & _); [simpl; lia..|].
  simpl in Hsym, Hfp.
  pose proof (count_calls_bounds is_symbolic calls) as Hs.
  pose proof (count_calls_bounds is_false_positive calls) as Hf.
  split; [|split].
  - rewrite <- !count_calls_positive.
    destruct (decide (0 < count_calls is_false_positive calls
                      ∧ ¬ 0 < count_calls is_symbolic calls)) as [[H1 H2]|Hno].
    + rewrite printStatistics_faults by lia. split; [done|]. by intros _.
    + destruct (printStatistics_returns (perform_all calls new)) as [report Hr]; [lia|].
      rewrite Hr. split; [done|]. intros [? ?]. destruct Hno. done.
  - rewrite <- !count_calls_positive. intros Hno.
    apply printStatistics_returns. lia.
  - intros [_ Hnosym].
    assert (symbolicFactorizations_ (perform_all calls new) = 0) as Hzero.
    { rewrite <- count_calls_positive in Hnosym. lia. }
    assert (totalSymbolicTime_ (perform_all calls new) = 0%float) as Htime.
    { rewrite total_symbolic_time_accumulates. apply accumulate_no_term.
      intros c Hc. destruct c as [t|t|w d r|t]; try done.
      destruct Hnosym. by exists (LogSymbolicFactorization t). }
    split; [done|]. split; [done|].
    unfold savedTime_ieee. rewrite Hzero, Htime.
    split; [reflexivity|]. by apply is_nan_mul_r.
Qed.

(** The theorem at one structure change logged as not necessary. *)
Lemma X17_witness :
  printStatistics (perform_all [LogStructureChange false 5 0.5] new) = UB DivisionByZero ∧
  PrimFloat.is_nan (savedTime_ieee (perform_all [LogStructureChange false 5 0.5] new))
  = true.
Proof.
  assert ((∃ c, c ∈ [LogStructureChange false 5 0.5] ∧ is_false_positive c = true) ∧
          ¬ (∃ c, c ∈ [LogStructureChange false 5 0.5] ∧ is_symbolic c = true)) as Hcond.
  { split.
    - exists (LogStructureChange false 5 0.5). split; [|reflexivity].
      apply elem_of_cons. left. reflexivity.
    - intros (c & Hc & Hk). apply elem_of_cons in Hc as [-> | Hc].
      + discriminate Hk.
      + apply elem_of_nil in Hc. exact Hc. }
  destruct (X17_division_by_zero_exactly_when [LogStructureChange false 5 0.5])
    as ([_ H] & _ & Hnan).
  - unfold INT_MAX. simpl. lia.
  - split; [exact (H Hcond)|]. exact (proj2 (proj2 (proj2 (Hnan Hcond)))).
Defined.
